(** * nextjs-vercel-todo: the server actions, the list view and the item view

    A shallow embedding of

    - [actions/todos.ts]          ([addTodo], [toggleTodo], [deleteTodo]),
    - [components/TodoList.tsx]   (the ordered query and the two tallies),
    - [components/TodoItem.tsx]   (the optimistic checkbox, the delete
                                   button),
    - [components/AddTodoForm.tsx] (the guard of [handleSubmit]),
    - [db/schema.ts]              (the [todos] table),

    together with the properties of the mutation-and-refresh protocol.

    The relational table, the clock and [revalidatePath] are
    collaborators of the program; each is given an explicit model
    below and the handlers are written against those models exactly as
    the TypeScript is written against the libraries.  What PostgreSQL
    decides on its own is kept open: the order of rows the query does
    not order is a parameter of the world, and a statement the
    database rejects throws. *)

From Stdlib Require Import String Ascii.
From Stdlib Require Import List ZArith NArith Bool Lia.
From Stdlib Require Import Sorting.Permutation Sorting.Sorted.
Import ListNotations.

Local Open Scope Z_scope.
Local Open Scope list_scope.

(* ================================================================== *)
(** ** JavaScript strings and [String.prototype.trim] *)

Module JsString.

(** A JavaScript string is a sequence of UTF-16 code units. *)
Definition t := list N.

(** An ASCII literal as a JavaScript string. *)
Definition lit (s : string) : t :=
  map N_of_ascii (list_ascii_of_string s).

(** ECMAScript [WhiteSpace]: TAB, VT, FF, ZWNBSP and the code points
    of general category Zs. *)
Definition isWhiteSpace (c : N) : bool :=
  ((c =? 0x09) || (c =? 0x0B) || (c =? 0x0C) || (c =? 0xFEFF)
   || (c =? 0x20) || (c =? 0xA0) || (c =? 0x1680)
   || ((0x2000 <=? c) && (c <=? 0x200A))
   || (c =? 0x202F) || (c =? 0x205F) || (c =? 0x3000))%N.

(** ECMAScript [LineTerminator]: LF, CR, LS, PS. *)
Definition isLineTerminator (c : N) : bool :=
  ((c =? 0x0A) || (c =? 0x0D) || (c =? 0x2028) || (c =? 0x2029))%N.

(** The code units [trim] strips. *)
Definition isTrimmed (c : N) : bool :=
  isWhiteSpace c || isLineTerminator c.

Fixpoint trimStart (s : t) : t :=
  match s with
  | [] => []
  | c :: s' => if isTrimmed c then trimStart s' else s
  end.

Definition trimEnd (s : t) : t := rev (trimStart (rev s)).

Definition trim (s : t) : t := trimEnd (trimStart s).

(** The string is empty or holds only white space and line
    terminators. *)
Definition blank (s : t) : bool := forallb isTrimmed s.

(** JavaScript truthiness of a string: only the empty one is falsy. *)
Definition truthy (s : t) : bool :=
  match s with [] => false | _ :: _ => true end.

End JsString.

(* ================================================================== *)
(** ** What PostgreSQL accepts ([integer] and [text] parameters) *)

Module Pg.

(** The values of the [integer] type behind a [serial] column. *)
Definition int4 (z : Z) : bool :=
  (-2147483648 <=? z) && (z <=? 2147483647).

Definition int4_dec (z : Z) : {int4 z = true} + {int4 z = false} :=
  match int4 z as b return {b = true} + {b = false} with
  | true => left eq_refl
  | false => right eq_refl
  end.

Definition isHighSurrogate (c : N) : bool :=
  ((0xD800 <=? c) && (c <=? 0xDBFF))%N.

Definition isLowSurrogate (c : N) : bool :=
  ((0xDC00 <=? c) && (c <=? 0xDFFF))%N.

(** A string as it comes back after being sent as UTF-8: a high
    surrogate followed by a low one is a code point and is kept, every
    other surrogate has become U+FFFD. *)
Fixpoint toWellFormed (s : JsString.t) : JsString.t :=
  match s with
  | [] => []
  | c :: s' =>
      if isHighSurrogate c then
        match s' with
        | d :: s'' =>
            if isLowSurrogate d then c :: d :: toWellFormed s''
            else 0xFFFD%N :: toWellFormed s'
        | [] => [0xFFFD%N]
        end
      else if isLowSurrogate c then 0xFFFD%N :: toWellFormed s'
      else c :: toWellFormed s'
  end.

Definition hasNul (s : JsString.t) : bool :=
  existsb (fun c => (c =? 0)%N) s.

(** A string bound to a [text] parameter: refused when it holds
    U+0000, else stored as [toWellFormed] gives it back. *)
Definition textParam (s : JsString.t) : option JsString.t :=
  if hasNul s then None else Some (toWellFormed s).

End Pg.

Arguments Pg.int4 : simpl never.

(* ================================================================== *)
(** ** The [todos] table ([db/schema.ts]) *)

(** [Todo = typeof todos.$inferSelect]: [id] is the serial primary
    key, a column of PostgreSQL type [integer], and [id_int4] says so:
    no row has a key outside that type.  [createdAt] is a timestamp
    (here: ticks of the database clock). *)
Record Todo : Type := mkTodo {
  id        : Z;
  text      : JsString.t;
  completed : bool;
  createdAt : Z;
  id_int4   : Pg.int4 id = true
}.

(** The database: the rows of [todos] in storage order and the next
    value of the sequence behind the serial column. *)
Record Db : Type := mkDb {
  todos        : list Todo;
  todos_id_seq : Z
}.

Definition emptyDb : Db := {| todos := []; todos_id_seq := 1 |}.

Module Sql.

(** [insert into todos (text) values (?)]: the key comes from the
    sequence, [completed] defaults to false, [created_at] to now.
    There is no row to write once the sequence has left [integer]. *)
Definition insert (now : Z) (txt : JsString.t) (d : Db) : option Db :=
  match Pg.int4_dec (todos_id_seq d) with
  | left inRange =>
      Some {| todos := todos d ++
                       [ {| id := todos_id_seq d; text := txt;
                            completed := false; createdAt := now;
                            id_int4 := inRange |} ];
              todos_id_seq := todos_id_seq d + 1 |}
  | right _ => None
  end.

(** [select * from todos where id = ? limit 1]. *)
Definition findFirst (i : Z) (d : Db) : option Todo :=
  find (fun t => id t =? i) (todos d).

Definition setCompleted (c : bool) (t : Todo) : Todo :=
  {| id := id t; text := text t; completed := c;
     createdAt := createdAt t; id_int4 := id_int4 t |}.

(** [update todos set completed = ? where id = ?]. *)
Definition update (c : bool) (i : Z) (d : Db) : Db :=
  {| todos := map (fun t => if id t =? i then setCompleted c t else t)
                  (todos d);
     todos_id_seq := todos_id_seq d |}.

(** [delete from todos where id = ?]. *)
Definition delete (i : Z) (d : Db) : Db :=
  {| todos := filter (fun t => negb (id t =? i)) (todos d);
     todos_id_seq := todos_id_seq d |}.

(** Insertion into a list that is already in descending [createdAt]
    order.  The new row passes the rows that are strictly newer; among
    rows of equal [createdAt] the query names no order, and the row
    passes those that [tie] lists before it. *)
Fixpoint insertDesc (tie : Todo -> Todo -> bool) (t : Todo)
    (l : list Todo) : list Todo :=
  match l with
  | [] => [t]
  | u :: l' =>
      if (createdAt t <? createdAt u)
         || ((createdAt t =? createdAt u) && tie u t)
      then u :: insertDesc tie t l'
      else t :: l
  end.

(** [select * from todos order by created_at desc], the database
    resolving ties by [tie]. *)
Definition findManyOrderByCreatedAtDesc (tie : Todo -> Todo -> bool)
    (d : Db) : list Todo :=
  fold_right (insertDesc tie) [] (todos d).

(** Two of the orders the database may give tied rows: the order they
    are stored in, and descending [id]. *)
Definition scanOrder (u t : Todo) : bool := false.

Definition idDesc (u t : Todo) : bool := id t <? id u.

End Sql.

(* ================================================================== *)
(** ** Server actions ([actions/todos.ts]) *)

(** What a handler does to the outside, in the order it does it.  A
    statement the database rejects does nothing and is not listed. *)
Inductive Effect : Type :=
| SqlSelect (i : Z)
| SqlInsert (txt : JsString.t)
| SqlUpdate (i : Z) (c : bool)
| SqlDelete (i : Z)
| RevalidatePath (path : string).

(** A thrown [Error] with its message. *)
Record Error : Type := mkError { message : string }.

Inductive Result (A : Type) : Type :=
| Ok (a : A)
| Throw (e : Error).
Arguments Ok {A} a.
Arguments Throw {A} e.

(** The world a server action runs in.  [ties u t] tells whether the
    database lists [u] before [t] when the query leaves their order
    open; it is the database's to choose and may be any function. *)
Record World : Type := mkWorld {
  db    : Db;
  clock : Z;
  trace : list Effect;
  ties  : Todo -> Todo -> bool
}.

(** An action threads the world and may throw. *)
Definition Action (A : Type) : Type := World -> Result A * World.

Definition ret {A} (a : A) : Action A := fun w => (Ok a, w).

Definition throw {A} (e : Error) : Action A := fun w => (Throw e, w).

Definition bind {A B} (m : Action A) (k : A -> Action B) : Action B :=
  fun w =>
    match m w with
    | (Ok a, w') => k a w'
    | (Throw e, w') => (Throw e, w')
    end.

Notation "x <- m ;; k" := (bind m (fun x => k))
  (at level 61, m at next level, right associativity).
Notation "m ;; k" := (bind m (fun _ => k))
  (at level 61, right associativity).

Definition emit (e : Effect) (w : World) : World :=
  {| db := db w; clock := clock w; trace := trace w ++ [e];
     ties := ties w |}.

Definition withDb (f : Db -> Db) (w : World) : World :=
  {| db := f (db w); clock := clock w; trace := trace w; ties := ties w |}.

(** The errors of the database, as the driver throws them (messages
    shortened): an [integer] parameter out of range, a [text]
    parameter holding U+0000, a sequence with no value left. *)
Definition PgIntegerOutOfRange : Error :=
  mkError "value is out of range for type integer".
Definition PgInvalidByteSequence : Error :=
  mkError "invalid byte sequence for encoding UTF8: 0x00".
Definition PgSequenceExhausted : Error :=
  mkError "nextval: reached maximum value of sequence".

(** [db.insert(todos).values({ text })] *)
Definition db_insert (txt : JsString.t) : Action unit :=
  fun w =>
    match Pg.textParam txt with
    | None => (Throw PgInvalidByteSequence, w)
    | Some stored =>
        match Sql.insert (clock w) stored (db w) with
        | None => (Throw PgSequenceExhausted, w)
        | Some d => (Ok tt, withDb (fun _ => d) (emit (SqlInsert txt) w))
        end
    end.

(** [db.query.todos.findFirst({ where: eq(todos.id, id) })]; the
    number passed is compared with an [integer] column, and the
    database refuses one that is outside that type. *)
Definition db_findFirst (i : Z) : Action (option Todo) :=
  fun w =>
    if Pg.int4 i then (Ok (Sql.findFirst i (db w)), emit (SqlSelect i) w)
    else (Throw PgIntegerOutOfRange, w).

(** [db.update(todos).set({ completed }).where(eq(todos.id, id))] *)
Definition db_update (c : bool) (i : Z) : Action unit :=
  fun w =>
    if Pg.int4 i then
      (Ok tt, withDb (Sql.update c i) (emit (SqlUpdate i c) w))
    else (Throw PgIntegerOutOfRange, w).

(** [db.delete(todos).where(eq(todos.id, id))] *)
Definition db_delete (i : Z) : Action unit :=
  fun w =>
    if Pg.int4 i then (Ok tt, withDb (Sql.delete i) (emit (SqlDelete i) w))
    else (Throw PgIntegerOutOfRange, w).

(** [revalidatePath(path)]: the list view rendered at [path] is stale. *)
Definition revalidatePath (path : string) : Action unit :=
  fun w => (Ok tt, emit (RevalidatePath path) w).

(** The handlers throw plain [Error]s, told apart by their message:
    [new Error('Todo text cannot be empty')] is the validation error,
    [new Error('Todo not found')] the not-found error. *)
Definition ValidationError : Error := mkError "Todo text cannot be empty".
Definition NotFoundError : Error := mkError "Todo not found".

Definition addTodo (txt : JsString.t) : Action unit :=
  if negb (JsString.truthy (JsString.trim txt)) then
    throw ValidationError
  else
    db_insert (JsString.trim txt) ;;
    revalidatePath "/".

Definition toggleTodo (i : Z) : Action unit :=
  todo <- db_findFirst i ;;
  match todo with
  | None => throw NotFoundError
  | Some todo =>
      db_update (negb (completed todo)) i ;;
      revalidatePath "/"
  end.

Definition deleteTodo (i : Z) : Action unit :=
  db_delete i ;;
  revalidatePath "/".

(** [const allTodos = await db.query.todos.findMany({ orderBy:
    [desc(todos.createdAt)] })]: the list every viewer is shown. *)
Definition allTodos (w : World) : list Todo :=
  Sql.findManyOrderByCreatedAtDesc (ties w) (db w).

(** Run an action for its final world. *)
Definition exec {A} (m : Action A) (w : World) : World := snd (m w).

(** The environment moving the clock between two requests. *)
Definition setClock (now : Z) (w : World) : World :=
  {| db := db w; clock := now; trace := trace w; ties := ties w |}.

(** The database changing its mind about the rows the query does not
    order. *)
Definition setTies (tie : Todo -> Todo -> bool) (w : World) : World :=
  {| db := db w; clock := clock w; trace := trace w; ties := tie |}.

(* ================================================================== *)
(** ** The list view ([components/TodoList.tsx]) *)

Inductive TodoListView : Type :=
| EmptyView
| StatsView (active : nat) (completedCount : nat) (items : list Todo).

Definition activeTodos (l : list Todo) : list Todo :=
  filter (fun todo => negb (completed todo)) l.

Definition completedTodos (l : list Todo) : list Todo :=
  filter (fun todo => completed todo) l.

Definition TodoList (w : World) : TodoListView :=
  let allTodos := allTodos w in
  if (length allTodos =? 0)%nat then EmptyView
  else StatsView (length (activeTodos allTodos))
                 (length (completedTodos allTodos))
                 allTodos.

(* ================================================================== *)
(** ** The item view ([components/TodoItem.tsx]) *)

Module React.

(** Modelled from the spec: the hook [useOptimistic], which is React's
    and not in the repository's files.  Spec 4.3, state
    [Optimistic(pendingValue)]: "local display shows pendingValue ...
    before any server acknowledgment", and state [Settled]: "local
    display equals last-known authoritative value".  So the value
    rendered is the passthrough value with the optimistic updates of
    the transition in flight applied on top, oldest first, and the
    passthrough value itself when none is in flight. *)
Definition useOptimistic {S A : Type}
    (passthrough : S) (reducer : S -> A -> S) (inFlight : list A) : S :=
  fold_left reducer inFlight passthrough.

End React.

(** One mounted [TodoItem]: its [todo] prop, the optimistic updates
    queued by the transition in flight, and [useTransition]'s flag. *)
Record TodoItem : Type := mkTodoItem {
  todo      : Todo;
  queued    : list bool;
  isPending : bool
}.

(** A freshly rendered item. *)
Definition mount (t : Todo) : TodoItem :=
  {| todo := t; queued := []; isPending := false |}.

Definition optimisticCompleted (v : TodoItem) : bool :=
  React.useOptimistic (completed (todo v)) (fun _ newState => newState)
                      (queued v).

(** The checkbox: [checked={optimisticCompleted}]. *)
Definition checked (v : TodoItem) : bool := optimisticCompleted v.

Definition setOptimisticCompleted (newState : bool) (v : TodoItem)
  : TodoItem :=
  {| todo := todo v; queued := queued v ++ [newState]; isPending := true |}.

(** Modelled from the spec: the end of a transition, which React and
    Next.js run and which is not in the repository's files.  Spec 4.3:
    "Transition back to Settled occurs when the authoritative re-fetch
    completes: if the handler succeeded, Settled adopts the value the
    server now reports ...; if the handler failed, the optimistic value
    is discarded and Settled reverts to the pre-optimistic
    authoritative value".  So the optimistic updates are dropped either
    way; after a success the item is rendered again from the fresh
    list, under its key (and is gone when its row is); after a failure
    it keeps the props it had. *)
Definition settle (r : Result unit) (after : World) (v : TodoItem)
  : option TodoItem :=
  match r with
  | Ok _ =>
      match find (fun t => id t =? id (todo v)) (allTodos after) with
      | Some t => Some (mount t)
      | None => None
      end
  | Throw _ => Some (mount (todo v))
  end.

Section ItemView.

(** The server action as the client reaches it: the call may fail
    for reasons of its own (the store, the network). *)
Variable toggleTodo_call : Z -> Action unit.

(** [handleToggle]: the optimistic flip, then the call.  The result
    holds the item as shown while the call is in flight, the item
    once the outcome is known, and the world after the call. *)
Definition handleToggle (v : TodoItem) (w : World)
  : TodoItem * option TodoItem * World :=
  let v1 := setOptimisticCompleted (negb (optimisticCompleted v)) v in
  let (r, w') := toggleTodo_call (id (todo v)) w in
  (v1, settle r w' v1, w').

End ItemView.

(* ================================================================== *)
(** ** Store invariant and specification vocabulary *)

(** What the primary key and the sequence guarantee of a table that
    only ever received rows through [Sql.insert]: keys are unique and
    the sequence is ahead of every key handed out. *)
Definition db_ok (d : Db) : Prop :=
  NoDup (map id (todos d)) /\
  Forall (fun t => id t < todos_id_seq d) (todos d).

(** [a] may stand before [b] in descending [createdAt] order. *)
Definition createdAtDesc (a b : Todo) : Prop := createdAt b <= createdAt a.

(** [a] must stand before [b] when ties on [createdAt] fall back to
    descending [id]. *)
Definition createdAtDescThenIdDesc (a b : Todo) : Prop :=
  createdAt b < createdAt a \/ (createdAt b = createdAt a /\ id b < id a).

Definition isRevalidate (e : Effect) : bool :=
  match e with RevalidatePath _ => true | _ => false end.

Definition isMutation (e : Effect) : bool :=
  match e with
  | SqlInsert _ | SqlUpdate _ _ | SqlDelete _ => true
  | _ => false
  end.

(** How many "the list view is stale" signals a run of effects holds. *)
Definition invalidations (evs : list Effect) : nat :=
  List.length (filter isRevalidate evs).

(** The invalidation contract of a handler: a successful run ends with
    one store mutation followed by the one signal it issues; a failed
    run touches nothing and signals nothing. *)
Definition signalsOnceAfterMutation (h : Action unit) : Prop :=
  forall w,
    exists evs,
      trace (exec h w) = trace w ++ evs /\
      match fst (h w) with
      | Ok _ =>
          exists reads m,
            evs = reads ++ [m; RevalidatePath "/"] /\
            forallb (fun e => negb (isMutation e || isRevalidate e)) reads
              = true /\
            isMutation m = true /\
            invalidations evs = 1%nat
      | Throw _ =>
          invalidations evs = 0%nat /\
          forallb (fun e => negb (isMutation e)) evs = true /\
          db (exec h w) = db w
      end.

(** A world with an empty table, the clock reading [now], the database
    listing tied rows in storage order. *)
Definition freshWorld (now : Z) : World :=
  {| db := emptyDb; clock := now; trace := []; ties := Sql.scanOrder |}.

(** [addTodo] at the moment the clock reads [now]. *)
Definition addTodoAt (now : Z) (txt : JsString.t) (w : World) : World :=
  exec (addTodo txt) (setClock now w).

(** "A", then "B", then "C" added while the clock reads the same. *)
Definition equalClockABC : World :=
  addTodoAt 0 (JsString.lit "C")
    (addTodoAt 0 (JsString.lit "B")
       (addTodoAt 0 (JsString.lit "A") (freshWorld 0))).

(** One request served, the clock moving on, or the database choosing
    another order for tied rows. *)
Inductive step : World -> World -> Prop :=
| step_addTodo (txt : JsString.t) (w : World) :
    step w (exec (addTodo txt) w)
| step_toggleTodo (i : Z) (w : World) :
    step w (exec (toggleTodo i) w)
| step_deleteTodo (i : Z) (w : World) :
    step w (exec (deleteTodo i) w)
| step_clock (now : Z) (w : World) :
    step w (setClock now w)
| step_ties (tie : Todo -> Todo -> bool) (w : World) :
    step w (setTies tie w).

(** The worlds the program reaches from an empty table. *)
Inductive reachable : World -> Prop :=
| reachable_fresh (now : Z) : reachable (freshWorld now)
| reachable_step (w w' : World) :
    reachable w -> step w w' -> reachable w'.

(** Any number of requests, one after the other. *)
Inductive steps : World -> World -> Prop :=
| steps_refl (w : World) : steps w w
| steps_next (w w' w'' : World) : steps w w' -> step w' w'' -> steps w w''.

(** The row a successful [addTodo] of [txt] in [w] has written. *)
Definition isInsertedRow (txt : JsString.t) (w : World) (t : Todo) : Prop :=
  id t = todos_id_seq (db w) /\
  text t = Pg.toWellFormed (JsString.trim txt) /\
  completed t = false /\
  createdAt t = clock w.

(** Whether [trimStart] leaves a string alone, read off the
    [isTrimmed] flags of its code units. *)
Definition headKept (flags : list bool) : bool :=
  match flags with true :: _ => false | _ => true end.

(** Two texts [addTodo] accepts and the database does not keep as
    they are: one holds U+0000, one an unpaired surrogate. *)
Definition textWithNul : JsString.t := [0x61; 0x00; 0x62]%N.

Definition textWithLoneSurrogate : JsString.t := [0x61; 0xD83E]%N.


(* ================================================================== *)
(** ** The remaining client handlers
       ([components/TodoItem.tsx], [components/AddTodoForm.tsx]) *)

(** [handleDelete]: the call, nothing optimistic; once its outcome is
    known the item settles as after any action. *)
Definition handleDelete (deleteTodo_call : Z -> Action unit)
    (v : TodoItem) (w : World) : option TodoItem * World :=
  let (r, w') := deleteTodo_call (id (todo v)) w in
  (settle r w' v, w').

(** The mounted form: the value of its [text] input. *)
Record FormDom : Type := mkFormDom { textInput : JsString.t }.

(** [formRef.current.reset()]: the input has no default value. *)
Definition formReset (f : FormDom) : FormDom := {| textInput := [] |}.

(** What the form's handlers act on: the form and the server's world. *)
Definition Client : Type := (FormDom * World)%type.

(** The closure [handleSubmit] hands over:
    [async () => { formRef.current?.reset(); await addTodo(text); }]. *)
Definition submitAction (addTodo_call : JsString.t -> Action unit)
    (txt : JsString.t) (c : Client) : Result unit * Client :=
  let f := formReset (fst c) in
  let (r, w') := addTodo_call txt (snd c) in
  (r, (f, w')).

Section AddTodoForm.

(** The dispatcher the hook returned, whatever it does with the
    closure it is given. *)
Variable startTransition : (Client -> Result unit * Client) -> Client -> Client.

(** [handleSubmit(formData)], [formData.get('text')] being the value
    of the input. *)
Definition handleSubmit (c : Client) : Client :=
  let txt := textInput (fst c) in
  if negb (JsString.truthy (JsString.trim txt)) then c
  else startTransition (submitAction addTodo txt) c.

End AddTodoForm.

(* ================================================================== *)
(** ** Facts about [trim] *)

Module JsStringFacts.
Import JsString.

Lemma trimStart_blank (s : t) : blank s = true -> trimStart s = [].
Proof.
  induction s as [|c s IH]; simpl; [reflexivity|].
  intros H. apply andb_true_iff in H as [Hc Hs].
  rewrite Hc. auto.
Qed.

Lemma trimStart_head (s : t) c r :
  trimStart s = c :: r -> isTrimmed c = false.
Proof.
  induction s as [|d s IH]; simpl; [discriminate|].
  destruct (isTrimmed d) eqn:Hd; [exact IH|].
  intros H. injection H as -> _. exact Hd.
Qed.

Lemma trimStart_nil (s : t) : trimStart s = [] -> blank s = true.
Proof.
  induction s as [|c s IH]; simpl; [reflexivity|].
  destruct (isTrimmed c); [exact IH | discriminate].
Qed.

Lemma blank_rev (s : t) : blank (rev s) = blank s.
Proof.
  unfold blank. induction s as [|c s IH]; simpl; [reflexivity|].
  rewrite forallb_app, IH. simpl. rewrite andb_true_r. apply andb_comm.
Qed.

(** [!text.trim()] holds exactly of the blank strings. *)
Lemma trim_nil_iff (s : t) : trim s = [] <-> blank s = true.
Proof.
  unfold trim, trimEnd. split.
  - intros H.
    assert (Hr : trimStart (rev (trimStart s)) = []).
    { destruct (trimStart (rev (trimStart s))) as [|c r];
        [reflexivity|].
      simpl in H. now destruct (rev r). }
    apply trimStart_nil in Hr. rewrite blank_rev in Hr.
    destruct (trimStart s) as [|c r] eqn:Hs.
    + now apply trimStart_nil.
    + apply trimStart_head in Hs. simpl in Hr.
      rewrite Hs in Hr. discriminate.
  - intros H. now rewrite (trimStart_blank _ H).
Qed.

Lemma truthy_trim (s : t) : truthy (trim s) = negb (blank s).
Proof.
  destruct (blank s) eqn:Hb.
  - apply trim_nil_iff in Hb. now rewrite Hb.
  - destruct (trim s) eqn:Ht; [|reflexivity].
    apply trim_nil_iff in Ht. congruence.
Qed.

Lemma trimStart_idem (s : t) : trimStart (trimStart s) = trimStart s.
Proof.
  induction s as [|c s IH]; simpl; [reflexivity|].
  destruct (isTrimmed c) eqn:E; [exact IH|].
  simpl. now rewrite E.
Qed.

Lemma trimStart_suffix (s : t) : exists p, s = p ++ trimStart s.
Proof.
  induction s as [|c s [p IH]]; simpl; [now exists []|].
  destruct (isTrimmed c).
  - exists (c :: p). simpl. now f_equal.
  - now exists [].
Qed.

Lemma trimStart_prefix_fixed (x y : t) :
  trimStart (x ++ y) = x ++ y -> trimStart x = x.
Proof.
  destruct x as [|c x]; [reflexivity|]. intros H.
  pose proof (trimStart_head _ _ _ H) as Hc.
  simpl. now rewrite Hc.
Qed.

(** A trimmed string has nothing to strip at either end. *)
Lemma trim_ends (s : t) :
  trimStart (trim s) = trim s /\ trimStart (rev (trim s)) = rev (trim s).
Proof.
  unfold trim, trimEnd.
  set (a := trimStart s).
  set (b := trimStart (rev a)).
  assert (Ha : trimStart a = a) by apply trimStart_idem.
  split.
  - destruct (trimStart_suffix (rev a)) as [p Hp]. fold b in Hp.
    apply (trimStart_prefix_fixed (rev b) (rev p)).
    rewrite <- rev_app_distr, <- Hp, rev_involutive. exact Ha.
  - rewrite rev_involutive. unfold b. apply trimStart_idem.
Qed.

Lemma trim_fixed_iff (s : t) :
  trim s = s <-> trimStart s = s /\ trimStart (rev s) = rev s.
Proof.
  split.
  - intros H. rewrite <- H. apply trim_ends.
  - intros [H1 H2]. unfold trim, trimEnd.
    now rewrite H1, H2, rev_involutive.
Qed.

(** Trimming a trimmed string changes nothing. *)
Lemma trim_idem (s : t) : trim (trim s) = trim s.
Proof. apply trim_fixed_iff, trim_ends. Qed.

Lemma trimStart_fixed_iff (s : t) :
  trimStart s = s <-> headKept (map isTrimmed s) = true.
Proof.
  destruct s as [|c s]; simpl; [tauto|].
  destruct (isTrimmed c) eqn:E; simpl.
  - split; [|discriminate]. intros H.
    apply trimStart_head in H. congruence.
  - tauto.
Qed.

Lemma trim_fixed_flags (s s' : t) :
  map isTrimmed s' = map isTrimmed s -> trim s = s -> trim s' = s'.
Proof.
  intros Hf H. apply trim_fixed_iff in H as [H1 H2].
  apply trim_fixed_iff. split; apply trimStart_fixed_iff.
  - rewrite Hf. now apply trimStart_fixed_iff.
  - rewrite map_rev, Hf, <- map_rev. now apply trimStart_fixed_iff.
Qed.

End JsStringFacts.

(* ================================================================== *)
(** ** Facts about what the database stores *)

Module PgFacts.
Import JsString Pg.

Ltac flags_false :=
  unfold isTrimmed, isWhiteSpace, isLineTerminator;
  repeat match goal with
    | |- context [(?c =? ?k)%N] =>
        let E := fresh in
        assert (E : (c =? k)%N = false) by (apply N.eqb_neq; lia);
        rewrite E; clear E
    end;
  match goal with
  | |- context [(?c <=? 0x200A)%N] =>
      let E := fresh in
      assert (E : (c <=? 0x200A)%N = false) by (apply N.leb_gt; lia);
      rewrite E; clear E
  end;
  now rewrite andb_false_r.

Lemma high_not_trimmed (c : N) :
  isHighSurrogate c = true -> isTrimmed c = false.
Proof.
  unfold isHighSurrogate. intros H.
  apply andb_true_iff in H as [H1 H2]. apply N.leb_le in H1, H2.
  flags_false.
Qed.

Lemma low_not_trimmed (c : N) :
  isLowSurrogate c = true -> isTrimmed c = false.
Proof.
  unfold isLowSurrogate. intros H.
  apply andb_true_iff in H as [H1 H2]. apply N.leb_le in H1, H2.
  flags_false.
Qed.

(** Storing a string keeps, place by place, what [trim] looks at. *)
Lemma toWellFormed_flags (s : t) :
  map isTrimmed (toWellFormed s) = map isTrimmed s.
Proof.
  assert (H : forall n s, (List.length s <= n)%nat ->
              map isTrimmed (toWellFormed s) = map isTrimmed s).
  { clear s. induction n as [|n IH]; intros s Hn.
    - destruct s; [reflexivity | simpl in Hn; lia].
    - destruct s as [|c s]; [reflexivity|]. simpl in Hn. simpl.
      destruct (isHighSurrogate c) eqn:Hh.
      + destruct s as [|d s].
        * simpl. now rewrite (high_not_trimmed _ Hh).
        * destruct (isLowSurrogate d) eqn:Hl; simpl.
          -- f_equal. f_equal. apply IH. simpl in Hn. lia.
          -- rewrite (high_not_trimmed _ Hh).
             change (false :: map isTrimmed (toWellFormed (d :: s))
                     = false :: map isTrimmed (d :: s)).
             f_equal. apply IH. lia.
      + destruct (isLowSurrogate c) eqn:Hl; simpl.
        * rewrite (low_not_trimmed _ Hl). f_equal. apply IH. lia.
        * f_equal. apply IH. lia. }
  now apply (H (List.length s)).
Qed.

Lemma toWellFormed_nonempty (s : t) : s <> [] -> toWellFormed s <> [].
Proof.
  intros Hs E. apply Hs.
  pose proof (toWellFormed_flags s) as H. rewrite E in H.
  destruct s; [reflexivity | discriminate].
Qed.

(** A string without surrogates is stored as it is. *)
Lemma toWellFormed_plain (s : t) :
  forallb (fun c => negb (isHighSurrogate c || isLowSurrogate c)) s = true ->
  toWellFormed s = s.
Proof.
  induction s as [|c s IH]; simpl; [reflexivity|].
  intros H. apply andb_true_iff in H as [Hc Hs].
  apply negb_true_iff, orb_false_iff in Hc as [Hh Hl].
  rewrite Hh, Hl. f_equal. now apply IH.
Qed.

Lemma textParam_some (s : t) :
  hasNul s = false -> textParam s = Some (toWellFormed s).
Proof. unfold textParam. now intros ->. Qed.

Lemma textParam_none (s : t) : hasNul s = true -> textParam s = None.
Proof. unfold textParam. now intros ->. Qed.

End PgFacts.

(* ================================================================== *)
(** ** Facts about the table *)

Module SqlFacts.
Import Sql.

Section Ties.

Variable tie : Todo -> Todo -> bool.

Lemma insertDesc_perm (t : Todo) (l : list Todo) :
  Permutation (t :: l) (insertDesc tie t l).
Proof.
  induction l as [|u l IH]; simpl; [apply Permutation_refl|].
  destruct ((createdAt t <? createdAt u)
            || (createdAt t =? createdAt u) && tie u t);
    [|apply Permutation_refl].
  eapply perm_trans; [apply perm_swap|]. now apply perm_skip.
Qed.

Lemma sort_perm (l : list Todo) :
  Permutation l (fold_right (insertDesc tie) [] l).
Proof.
  induction l as [|t l IH]; simpl; [constructor|].
  eapply perm_trans; [|apply insertDesc_perm]. now apply perm_skip.
Qed.

Lemma insertDesc_sorted (t : Todo) (l : list Todo) :
  StronglySorted createdAtDesc l ->
  StronglySorted createdAtDesc (insertDesc tie t l).
Proof.
  induction l as [|u l IH]; simpl; intros Hs.
  - repeat constructor.
  - apply StronglySorted_inv in Hs as [Hl Hu].
    destruct ((createdAt t <? createdAt u)
              || (createdAt t =? createdAt u) && tie u t) eqn:Hlt.
    + assert (Hle : createdAt t <= createdAt u).
      { apply orb_true_iff in Hlt as [H|H].
        - apply Z.ltb_lt in H. lia.
        - apply andb_true_iff in H as [H _]. apply Z.eqb_eq in H. lia. }
      constructor; [now apply IH|].
      eapply Permutation_Forall; [apply insertDesc_perm|].
      constructor; [exact Hle | exact Hu].
    + apply orb_false_iff in Hlt as [Hlt _]. apply Z.ltb_ge in Hlt.
      constructor.
      * now constructor.
      * constructor; [exact Hlt|].
        eapply Forall_impl; [|exact Hu].
        unfold createdAtDesc. intros; lia.
Qed.

Lemma sort_sorted (l : list Todo) :
  StronglySorted createdAtDesc (fold_right (insertDesc tie) [] l).
Proof.
  induction l as [|t l IH]; simpl; [constructor|].
  now apply insertDesc_sorted.
Qed.

Lemma sort_In (t : Todo) (l : list Todo) :
  In t (fold_right (insertDesc tie) [] l) <-> In t l.
Proof.
  split; apply Permutation_in;
    [apply Permutation_sym|]; apply sort_perm.
Qed.

(** A row strictly newer than every row stored goes to the front,
    whatever the database does with ties. *)
Lemma sort_snoc_newest (t : Todo) (l : list Todo) :
  Forall (fun u => createdAt u < createdAt t) l ->
  fold_right (insertDesc tie) [] (l ++ [t])
  = t :: fold_right (insertDesc tie) [] l.
Proof.
  rewrite fold_right_app. simpl.
  induction l as [|x l IH]; simpl; intros H; [reflexivity|].
  apply Forall_cons_iff in H as [Hx Hl].
  rewrite (IH Hl). simpl.
  apply Z.ltb_lt in Hx. now rewrite Hx.
Qed.

End Ties.

Lemma filter_perm (p : Todo -> bool) (l l' : list Todo) :
  Permutation l l' -> Permutation (filter p l) (filter p l').
Proof.
  induction 1 as [|x l l' _ IH|x y l|l l' l'' _ IH1 _ IH2]; simpl.
  - constructor.
  - destruct (p x); [now apply perm_skip | exact IH].
  - destruct (p x), (p y); try apply Permutation_refl. apply perm_swap.
  - now apply perm_trans with (filter p l').
Qed.

(** Under the primary key, a key names one row. *)
Lemma key_unique (l : list Todo) (t u : Todo) :
  NoDup (map id l) -> In t l -> In u l -> id u = id t -> u = t.
Proof.
  induction l as [|x l IH]; simpl; [tauto|].
  intros Hnd Ht Hu E. apply NoDup_cons_iff in Hnd as [Hx Hnd].
  destruct Ht as [->|Ht], Hu as [->|Hu]; auto.
  - exfalso. apply Hx. rewrite <- E. now apply in_map.
  - exfalso. apply Hx. rewrite E. now apply in_map.
Qed.

Lemma find_key (l : list Todo) (t : Todo) :
  NoDup (map id l) -> In t l ->
  find (fun u => id u =? id t) l = Some t.
Proof.
  induction l as [|x l IH]; simpl; [tauto|].
  intros Hnd Ht. apply NoDup_cons_iff in Hnd as [Hx Hnd].
  destruct (id x =? id t) eqn:E.
  - apply Z.eqb_eq in E. destruct Ht as [->|Ht]; [reflexivity|].
    exfalso. apply Hx. rewrite E. now apply in_map.
  - destruct Ht as [->|Ht]; [rewrite Z.eqb_refl in E; discriminate|].
    now apply IH.
Qed.

Lemma find_absent (l : list Todo) (i : Z) :
  ~ In i (map id l) -> find (fun u => id u =? i) l = None.
Proof.
  induction l as [|x l IH]; simpl; [reflexivity|].
  intros H. destruct (id x =? i) eqn:E.
  - apply Z.eqb_eq in E. tauto.
  - apply IH. tauto.
Qed.

Lemma find_present (l : list Todo) (t : Todo) :
  In t l -> exists u, find (fun u => id u =? id t) l = Some u.
Proof.
  induction l as [|x l IH]; simpl; [tauto|].
  intros [->|Ht].
  - rewrite Z.eqb_refl. eauto.
  - destruct (id x =? id t); eauto.
Qed.

(** A key that is found is an [integer]. *)
Lemma findFirst_int4 (i : Z) (d : Db) (t : Todo) :
  findFirst i d = Some t -> Pg.int4 i = true.
Proof.
  intros H. apply find_some in H as [_ H]. apply Z.eqb_eq in H.
  rewrite <- H. apply id_int4.
Qed.

Lemma filter_absent (l : list Todo) (i : Z) :
  ~ In i (map id l) -> filter (fun t => negb (id t =? i)) l = l.
Proof.
  induction l as [|x l IH]; simpl; [reflexivity|].
  intros H. destruct (id x =? i) eqn:E.
  - apply Z.eqb_eq in E. tauto.
  - simpl. f_equal. apply IH. tauto.
Qed.

Lemma setCompleted_same (t : Todo) : setCompleted (completed t) t = t.
Proof. now destruct t. Qed.

Lemma setCompleted_twice (c c' : bool) (t : Todo) :
  setCompleted c (setCompleted c' t) = setCompleted c t.
Proof. reflexivity. Qed.

Lemma update_ids (c : bool) (i : Z) (l : list Todo) :
  map id (map (fun t => if id t =? i then setCompleted c t else t) l)
  = map id l.
Proof.
  rewrite map_map. apply map_ext. intros t. now destruct (id t =? i).
Qed.

Lemma update_absent (c : bool) (i : Z) (l : list Todo) :
  ~ In i (map id l) ->
  map (fun t => if id t =? i then setCompleted c t else t) l = l.
Proof.
  induction l as [|x l IH]; simpl; [reflexivity|].
  intros H. destruct (id x =? i) eqn:E.
  - apply Z.eqb_eq in E. tauto.
  - f_equal. apply IH. tauto.
Qed.

Lemma insert_some (now : Z) (txt : JsString.t) (d : Db) :
  Pg.int4 (todos_id_seq d) = true ->
  exists t,
    insert now txt d
    = Some {| todos := todos d ++ [t];
              todos_id_seq := todos_id_seq d + 1 |} /\
    id t = todos_id_seq d /\ text t = txt /\
    completed t = false /\ createdAt t = now.
Proof.
  intros H. unfold insert.
  destruct (Pg.int4_dec (todos_id_seq d)) as [pf|pf]; [|congruence].
  eexists. split; [reflexivity|]. simpl. auto.
Qed.

Lemma insert_none (now : Z) (txt : JsString.t) (d : Db) :
  Pg.int4 (todos_id_seq d) = false -> insert now txt d = None.
Proof.
  intros H. unfold insert.
  destruct (Pg.int4_dec (todos_id_seq d)) as [pf|pf]; [congruence|].
  reflexivity.
Qed.

End SqlFacts.

(* ================================================================== *)
(** ** How each handler runs *)

Lemma addTodo_nonblank (w : World) (txt : JsString.t) :
  JsString.trim txt <> [] ->
  addTodo txt w
  = (db_insert (JsString.trim txt) ;; revalidatePath "/") w.
Proof.
  intros H. unfold addTodo.
  destruct (JsString.trim txt); [congruence | reflexivity].
Qed.

(** What one successful [addTodo] leaves behind. *)
Lemma addTodo_ok (w : World) (txt : JsString.t) :
  JsString.trim txt <> [] ->
  Pg.hasNul (JsString.trim txt) = false ->
  Pg.int4 (todos_id_seq (db w)) = true ->
  exists t,
    isInsertedRow txt w t /\
    addTodo txt w =
    (Ok tt,
     {| db := {| todos := todos (db w) ++ [t];
                 todos_id_seq := todos_id_seq (db w) + 1 |};
        clock := clock w;
        trace := trace w ++ [SqlInsert (JsString.trim txt);
                             RevalidatePath "/"];
        ties := ties w |}).
Proof.
  intros Ht Hn Hs.
  destruct (SqlFacts.insert_some (clock w)
              (Pg.toWellFormed (JsString.trim txt)) (db w) Hs)
    as [t [Hi [H1 [H2 [H3 H4]]]]].
  exists t. split; [repeat split; assumption|].
  rewrite (addTodo_nonblank _ _ Ht). unfold bind, db_insert.
  rewrite (PgFacts.textParam_some _ Hn), Hi.
  unfold revalidatePath, withDb, emit. simpl.
  now rewrite <- app_assoc.
Qed.

(** [addTodo] either throws and leaves the world alone, or has written
    its row. *)
Lemma addTodo_cases (w : World) (txt : JsString.t) :
  (exists e, addTodo txt w = (Throw e, w)) \/
  (exists t,
     JsString.trim txt <> [] /\
     isInsertedRow txt w t /\
     addTodo txt w =
     (Ok tt,
      {| db := {| todos := todos (db w) ++ [t];
                  todos_id_seq := todos_id_seq (db w) + 1 |};
         clock := clock w;
         trace := trace w ++ [SqlInsert (JsString.trim txt);
                              RevalidatePath "/"];
         ties := ties w |})).
Proof.
  destruct (JsString.trim txt) as [|c r] eqn:Ht.
  { left. exists ValidationError. unfold addTodo. now rewrite Ht. }
  assert (Hne : JsString.trim txt <> []) by (rewrite Ht; discriminate).
  rewrite <- Ht.
  destruct (Pg.hasNul (JsString.trim txt)) eqn:Hn.
  { left. exists PgInvalidByteSequence.
    rewrite (addTodo_nonblank _ _ Hne). unfold bind, db_insert.
    now rewrite (PgFacts.textParam_none _ Hn). }
  destruct (Pg.int4 (todos_id_seq (db w))) eqn:Hs.
  - right. destruct (addTodo_ok w txt Hne Hn Hs) as [t [Hrow Hrun]].
    exists t. auto.
  - left. exists PgSequenceExhausted.
    rewrite (addTodo_nonblank _ _ Hne). unfold bind, db_insert.
    rewrite (PgFacts.textParam_some _ Hn).
    now rewrite (SqlFacts.insert_none _ _ _ Hs).
Qed.

Lemma toggleTodo_found_run (w : World) (i : Z) (t : Todo) :
  Sql.findFirst i (db w) = Some t ->
  toggleTodo i w =
  (Ok tt,
   {| db := Sql.update (negb (completed t)) i (db w);
      clock := clock w;
      trace := trace w ++ [SqlSelect i; SqlUpdate i (negb (completed t));
                           RevalidatePath "/"];
      ties := ties w |}).
Proof.
  intros H. pose proof (SqlFacts.findFirst_int4 _ _ _ H) as Hi.
  unfold toggleTodo, bind, db_findFirst. rewrite Hi, H.
  unfold db_update. simpl. rewrite Hi.
  unfold revalidatePath, withDb, emit. simpl.
  now rewrite <- !app_assoc.
Qed.

Lemma toggleTodo_absent_run (w : World) (i : Z) :
  Pg.int4 i = true ->
  Sql.findFirst i (db w) = None ->
  toggleTodo i w = (Throw NotFoundError, emit (SqlSelect i) w).
Proof.
  intros Hi H. unfold toggleTodo, bind, db_findFirst.
  now rewrite Hi, H.
Qed.

Lemma toggleTodo_range_run (w : World) (i : Z) :
  Pg.int4 i = false ->
  toggleTodo i w = (Throw PgIntegerOutOfRange, w).
Proof.
  intros Hi. unfold toggleTodo, bind, db_findFirst. now rewrite Hi.
Qed.

(** [toggleTodo] in full: what it returns and the world it leaves. *)
Lemma toggleTodo_run (w : World) (i : Z) :
  toggleTodo i w =
  if Pg.int4 i then
    match Sql.findFirst i (db w) with
    | Some t =>
        (Ok tt,
         {| db := Sql.update (negb (completed t)) i (db w);
            clock := clock w;
            trace := trace w ++
                     [SqlSelect i; SqlUpdate i (negb (completed t));
                      RevalidatePath "/"];
            ties := ties w |})
    | None => (Throw NotFoundError, emit (SqlSelect i) w)
    end
  else (Throw PgIntegerOutOfRange, w).
Proof.
  destruct (Pg.int4 i) eqn:Hi.
  - destruct (Sql.findFirst i (db w)) eqn:Hf.
    + now apply toggleTodo_found_run.
    + now apply toggleTodo_absent_run.
  - now apply toggleTodo_range_run.
Qed.

Lemma deleteTodo_run (w : World) (i : Z) :
  deleteTodo i w =
  if Pg.int4 i then
    (Ok tt,
     {| db := Sql.delete i (db w);
        clock := clock w;
        trace := trace w ++ [SqlDelete i; RevalidatePath "/"];
        ties := ties w |})
  else (Throw PgIntegerOutOfRange, w).
Proof.
  unfold deleteTodo, bind, db_delete.
  destruct (Pg.int4 i); [|reflexivity].
  unfold revalidatePath, withDb, emit. simpl.
  now rewrite <- app_assoc.
Qed.

(* ================================================================== *)
(** ** The list query *)

Lemma allTodos_perm (w : World) : Permutation (todos (db w)) (allTodos w).
Proof. apply SqlFacts.sort_perm. Qed.

Lemma allTodos_In (w : World) (t : Todo) :
  In t (allTodos w) <-> In t (todos (db w)).
Proof. apply SqlFacts.sort_In. Qed.

Lemma addTodoAt_success (now : Z) (txt : JsString.t) (w : World) :
  fst (addTodo txt (setClock now w)) = Ok tt ->
  exists t,
    todos (db (addTodoAt now txt w)) = todos (db w) ++ [t] /\
    text t = Pg.toWellFormed (JsString.trim txt) /\
    createdAt t = now.
Proof.
  intros Hok. unfold addTodoAt, exec.
  destruct (addTodo_cases (setClock now w) txt)
    as [[e He] | [t [_ [[_ [Htx [_ Hc]]] Hrun]]]].
  - rewrite He in Hok. discriminate.
  - rewrite Hrun. exists t. simpl. auto.
Qed.

(** C1, as stated, fails: [TodoList] orders by [createdAt] alone.
    With "A", "B", "C" added under one clock reading and the database
    listing tied rows as they are stored, the list reads A, B, C: an
    answer the query allows (every row, in descending [createdAt]
    order) that is neither C, B, A nor descending in [id].  The code
    has no part in the order: were the database to list tied rows by
    descending [id], the same call would read C, B, A. *)
Lemma list_ties_not_by_id_desc :
  map text (allTodos equalClockABC)
    = [JsString.lit "A"; JsString.lit "B"; JsString.lit "C"] /\
  map text (allTodos equalClockABC)
    <> [JsString.lit "C"; JsString.lit "B"; JsString.lit "A"] /\
  ~ StronglySorted createdAtDescThenIdDesc (allTodos equalClockABC) /\
  Permutation (todos (db equalClockABC)) (allTodos equalClockABC) /\
  StronglySorted createdAtDesc (allTodos equalClockABC) /\
  map text (allTodos (setTies Sql.idDesc equalClockABC))
    = [JsString.lit "C"; JsString.lit "B"; JsString.lit "A"].
Proof.
  split; [reflexivity|]. split; [discriminate|]. split.
  { intros H. set (l := allTodos equalClockABC) in H.
    vm_compute in l. subst l.
    apply StronglySorted_inv in H as [_ H].
    apply Forall_inv in H. unfold createdAtDescThenIdDesc in H.
    simpl in H. lia. }
  split; [apply allTodos_perm|].
  split; [apply SqlFacts.sort_sorted | reflexivity].
Qed.

(** C1, amended: for every store state, and whatever order the
    database gives rows of equal [createdAt], the list holds exactly
    the stored items in descending [createdAt] order (no order by
    [id] is promised among equal timestamps); and when "A", "B", "C"
    are added at strictly increasing clock readings, each later than
    every stored item, the list starts with C, B, A, in that order,
    followed by the former items, still in descending [createdAt]
    order. *)
Theorem list_ordered_by_createdAt_desc
    (w : World) (a b c : JsString.t) (t1 t2 t3 : Z)
    (tie : Todo -> Todo -> bool) :
  Permutation (todos (db w)) (allTodos w) /\
  StronglySorted createdAtDesc (allTodos w) /\
  (let w1 := addTodoAt t1 a w in
   let w2 := addTodoAt t2 b w1 in
   let w3 := addTodoAt t3 c w2 in
   fst (addTodo a (setClock t1 w)) = Ok tt ->
   fst (addTodo b (setClock t2 w1)) = Ok tt ->
   fst (addTodo c (setClock t3 w2)) = Ok tt ->
   Forall (fun u => createdAt u < t1) (todos (db w)) ->
   t1 < t2 -> t2 < t3 ->
   exists rest,
     map text (allTodos (setTies tie w3))
     = Pg.toWellFormed (JsString.trim c)
         :: Pg.toWellFormed (JsString.trim b)
         :: Pg.toWellFormed (JsString.trim a) :: map text rest /\
     Permutation rest (allTodos w) /\
     StronglySorted createdAtDesc rest).
Proof.
  split; [apply allTodos_perm|].
  split; [apply SqlFacts.sort_sorted|].
  intros w1 w2 w3 Ha Hb Hc Hold H12 H23.
  destruct (addTodoAt_success t1 a w Ha) as [ra [E1 [Ta Ca]]].
  destruct (addTodoAt_success t2 b w1 Hb) as [rb [E2 [Tb Cb]]].
  destruct (addTodoAt_success t3 c w2 Hc) as [rc [E3 [Tc Cc]]].
  fold w1 in E1, E2. fold w2 in E2, E3. fold w3 in E3.
  assert (H1 : Forall (fun u => createdAt u < createdAt rb) (todos (db w1))).
  { rewrite E1. apply Forall_app. split.
    - eapply Forall_impl; [|exact Hold]. simpl. intros; lia.
    - repeat constructor. lia. }
  assert (H2 : Forall (fun u => createdAt u < createdAt rc) (todos (db w2))).
  { rewrite E2. apply Forall_app. split.
    - eapply Forall_impl; [|exact H1]. simpl. intros; lia.
    - repeat constructor. lia. }
  assert (H0 : Forall (fun u => createdAt u < createdAt ra) (todos (db w))).
  { eapply Forall_impl; [|exact Hold]. simpl. intros; lia. }
  exists (fold_right (Sql.insertDesc tie) [] (todos (db w))).
  split; [|split].
  - unfold allTodos, Sql.findManyOrderByCreatedAtDesc. simpl.
    rewrite E3, (SqlFacts.sort_snoc_newest tie _ _ H2).
    rewrite E2, (SqlFacts.sort_snoc_newest tie _ _ H1).
    rewrite E1, (SqlFacts.sort_snoc_newest tie _ _ H0).
    simpl. now rewrite Ta, Tb, Tc.
  - eapply perm_trans; [apply Permutation_sym, SqlFacts.sort_perm|].
    apply allTodos_perm.
  - apply SqlFacts.sort_sorted.
Qed.

Lemma list_ordered_by_createdAt_desc_witness :
  exists rest,
    map text
      (allTodos (setTies Sql.idDesc
         (addTodoAt 3 (JsString.lit "F")
            (addTodoAt 2 (JsString.lit "E")
               (addTodoAt 1 (JsString.lit "D") equalClockABC)))))
    = Pg.toWellFormed (JsString.trim (JsString.lit "F"))
        :: Pg.toWellFormed (JsString.trim (JsString.lit "E"))
        :: Pg.toWellFormed (JsString.trim (JsString.lit "D"))
        :: map text rest /\
    Permutation rest (allTodos equalClockABC) /\
    StronglySorted createdAtDesc rest.
Proof.
  apply (list_ordered_by_createdAt_desc equalClockABC
           (JsString.lit "D") (JsString.lit "E") (JsString.lit "F")
           1 2 3 Sql.idDesc);
    try reflexivity.
  repeat constructor.
Defined.

(* ================================================================== *)
(** ** [addTodo] *)

(** The store invariant holds of the empty table and every handler
    keeps it, so it holds of every state the program reaches. *)
Lemma db_ok_empty : db_ok emptyDb.
Proof. split; constructor. Qed.

Lemma db_ok_snoc (d : Db) (t : Todo) :
  db_ok d -> id t = todos_id_seq d ->
  db_ok {| todos := todos d ++ [t]; todos_id_seq := todos_id_seq d + 1 |}.
Proof.
  intros [Hnd Hlt] Hid. split; simpl.
  - rewrite map_app. simpl.
    apply Permutation_NoDup with (l := id t :: map id (todos d)).
    + apply Permutation_cons_append.
    + constructor; [|exact Hnd].
      intros Hin. apply in_map_iff in Hin as [u [E Hu]].
      rewrite Forall_forall in Hlt. specialize (Hlt u Hu). lia.
  - apply Forall_app. split.
    + eapply Forall_impl; [|exact Hlt]. simpl. intros; lia.
    + repeat constructor. lia.
Qed.

Lemma db_ok_update (c : bool) (i : Z) (d : Db) :
  db_ok d -> db_ok (Sql.update c i d).
Proof.
  intros [Hnd Hlt]. split; simpl.
  - now rewrite SqlFacts.update_ids.
  - apply Forall_map. eapply Forall_impl; [|exact Hlt].
    simpl. intros t Ht. now destruct (id t =? i).
Qed.

Lemma db_ok_delete (i : Z) (d : Db) : db_ok d -> db_ok (Sql.delete i d).
Proof.
  intros [Hnd Hlt]. split; simpl.
  - induction (todos d) as [|x l IH]; simpl; [constructor|].
    apply NoDup_cons_iff in Hnd as [Hx Hnd].
    apply Forall_cons_iff in Hlt as [_ Hlt].
    destruct (id x =? i); simpl; [now apply IH|].
    constructor; [|now apply IH].
    intros Hin. apply Hx. apply in_map_iff in Hin as [u [E Hu]].
    apply filter_In in Hu as [Hu _]. rewrite <- E. now apply in_map.
  - rewrite Forall_forall in *. intros t Ht.
    apply filter_In in Ht as [Ht _]. auto.
Qed.

Lemma db_ok_handlers (w : World) (txt : JsString.t) (i : Z) :
  db_ok (db w) ->
  db_ok (db (exec (addTodo txt) w)) /\
  db_ok (db (exec (toggleTodo i) w)) /\
  db_ok (db (exec (deleteTodo i) w)).
Proof.
  intros Hok. unfold exec. split; [|split].
  - destruct (addTodo_cases w txt)
      as [[e He] | [t [_ [[Hid _] Hrun]]]].
    + now rewrite He.
    + rewrite Hrun. simpl. now apply db_ok_snoc.
  - rewrite toggleTodo_run.
    destruct (Pg.int4 i); [|exact Hok].
    destruct (Sql.findFirst i (db w)); simpl;
      [now apply db_ok_update | exact Hok].
  - rewrite deleteTodo_run.
    destruct (Pg.int4 i); simpl; [now apply db_ok_delete | exact Hok].
Qed.

Lemma step_db_ok (w w' : World) : step w w' -> db_ok (db w) -> db_ok (db w').
Proof.
  intros [txt w0 | i w0 | i w0 | now w0 | tie w0] Hok.
  - now apply (db_ok_handlers w0 txt 0).
  - now apply (db_ok_handlers w0 [] i).
  - now apply (db_ok_handlers w0 [] i).
  - exact Hok.
  - exact Hok.
Qed.

(** X11: in every world the program reaches from an empty table, no
    two stored items share an [id] and every [id] in the table is
    below the next value of the sequence. *)
Lemma reachable_db_ok (w : World) : reachable w -> db_ok (db w).
Proof.
  induction 1 as [now | w w' _ IH Hstep]; [apply db_ok_empty|].
  now apply (step_db_ok w w').
Qed.

Lemma reachable_db_ok_witness :
  List.length (todos (db (exec (deleteTodo 2) equalClockABC))) = 2%nat /\
  db_ok (db (exec (deleteTodo 2) equalClockABC)).
Proof.
  split; [reflexivity|].
  apply reachable_db_ok.
  eapply reachable_step; [|apply step_deleteTodo].
  unfold equalClockABC, addTodoAt.
  repeat (eapply reachable_step;
          [eapply reachable_step; [|apply step_clock] | apply step_addTodo]).
  apply reachable_fresh.
Defined.

(** C2, as stated, fails: a text can be non-empty after trimming and
    still not be stored as it is.  A text holding U+0000 is refused by
    the database, [addTodo] throws and the list is what it was; a text
    holding an unpaired surrogate is stored with U+FFFD in its place,
    so no listed item has the trimmed input as its text. *)
Lemma addTodo_text_not_kept :
  JsString.trim textWithNul <> [] /\
  fst (addTodo textWithNul equalClockABC) = Throw PgInvalidByteSequence /\
  allTodos (exec (addTodo textWithNul) equalClockABC)
    = allTodos equalClockABC /\
  JsString.trim textWithLoneSurrogate <> [] /\
  fst (addTodo textWithLoneSurrogate equalClockABC) = Ok tt /\
  ~ In (JsString.trim textWithLoneSurrogate)
       (map text (allTodos (exec (addTodo textWithLoneSurrogate)
                                 equalClockABC))).
Proof.
  split; [discriminate|]. split; [reflexivity|]. split; [reflexivity|].
  split; [discriminate|]. split; [reflexivity|].
  vm_compute. intuition discriminate.
Qed.

(** C2, amended: for every text that is non-empty after trimming and
    holds no U+0000, as long as the sequence still has an [integer] to
    give, [addTodo] succeeds and the list that follows holds the prior
    items plus exactly one new item: its text is the trimmed input
    with every unpaired surrogate replaced by U+FFFD (the trimmed
    input itself when it holds no surrogate), it is not completed, its
    [createdAt] is the clock reading at creation, and its [id] is the
    [id] of no prior item. *)
Theorem addTodo_adds_one_item (w : World) (txt : JsString.t) :
  db_ok (db w) ->
  JsString.trim txt <> [] ->
  Pg.hasNul (JsString.trim txt) = false ->
  Pg.int4 (todos_id_seq (db w)) = true ->
  exists t,
    fst (addTodo txt w) = Ok tt /\
    Permutation (allTodos (exec (addTodo txt) w)) (t :: allTodos w) /\
    text t = Pg.toWellFormed (JsString.trim txt) /\
    (forallb (fun c => negb (Pg.isHighSurrogate c || Pg.isLowSurrogate c))
             (JsString.trim txt) = true ->
     text t = JsString.trim txt) /\
    completed t = false /\
    createdAt t = clock w /\
    ~ In (id t) (map id (allTodos w)).
Proof.
  intros [_ Hlt] Ht Hn Hs.
  destruct (addTodo_ok w txt Ht Hn Hs) as [t [[Hid [Htx [Hc Hcr]]] Hrun]].
  exists t. unfold exec. rewrite Hrun. simpl.
  split; [reflexivity|]. split; [|split; [exact Htx|]].
  - eapply perm_trans; [apply Permutation_sym, allTodos_perm|]. simpl.
    eapply perm_trans; [apply Permutation_sym, Permutation_cons_append|].
    apply perm_skip, allTodos_perm.
  - split.
    { intros Hp. rewrite Htx. now apply PgFacts.toWellFormed_plain. }
    split; [exact Hc|]. split; [exact Hcr|].
    intros Hin. apply in_map_iff in Hin as [u [E Hu]].
    apply allTodos_In in Hu.
    rewrite Forall_forall in Hlt. specialize (Hlt u Hu). lia.
Qed.

Lemma addTodo_adds_one_item_witness :
  exists t,
    fst (addTodo (JsString.lit "  buy milk ") equalClockABC) = Ok tt /\
    Permutation
      (allTodos (exec (addTodo (JsString.lit "  buy milk ")) equalClockABC))
      (t :: allTodos equalClockABC) /\
    text t = JsString.lit "buy milk" /\
    ~ In (id t) (map id (allTodos equalClockABC)).
Proof.
  destruct (addTodo_adds_one_item equalClockABC (JsString.lit "  buy milk "))
    as [t [H1 [H2 [_ [H3 [_ [_ H4]]]]]]].
  - split; [repeat constructor; simpl; intuition discriminate
           | repeat constructor].
  - discriminate.
  - reflexivity.
  - reflexivity.
  - exists t. split; [exact H1|]. split; [exact H2|].
    split; [|exact H4]. now apply H3.
Defined.

(** C3: for every text that is empty or only white space, [addTodo]
    throws the validation error to its caller, and does so before any
    statement reaches the store: the world after is the world before,
    with no effect recorded, so the list is what it was. *)
Theorem addTodo_blank_rejected (w : World) (txt : JsString.t) :
  JsString.blank txt = true ->
  addTodo txt w = (Throw ValidationError, w) /\
  trace (exec (addTodo txt) w) = trace w /\
  db (exec (addTodo txt) w) = db w /\
  allTodos (exec (addTodo txt) w) = allTodos w.
Proof.
  intros Hb.
  assert (E : addTodo txt w = (Throw ValidationError, w)).
  { unfold addTodo. rewrite JsStringFacts.truthy_trim, Hb. reflexivity. }
  unfold exec. rewrite E. auto.
Qed.

Lemma addTodo_blank_rejected_witness :
  addTodo [0x20; 0x09; 0xA0; 0x0A]%N equalClockABC
  = (Throw ValidationError, equalClockABC).
Proof.
  apply (addTodo_blank_rejected equalClockABC [0x20; 0x09; 0xA0; 0x0A]%N).
  reflexivity.
Defined.

(* ================================================================== *)
(** ** [toggleTodo] *)

Lemma update_In (c : bool) (i : Z) (l : list Todo) (u : Todo) :
  In u (map (fun t => if id t =? i then Sql.setCompleted c t else t) l) ->
  id u = i ->
  exists t, In t l /\ id t = i /\ u = Sql.setCompleted c t.
Proof.
  intros Hin E. apply in_map_iff in Hin as [t [Ht Hl]].
  destruct (id t =? i) eqn:Ei.
  - apply Z.eqb_eq in Ei. eauto.
  - apply Z.eqb_neq in Ei. subst u. contradiction.
Qed.

Lemma update_restores (l : list Todo) (t : Todo) :
  NoDup (map id l) -> In t l ->
  map (fun u => if id u =? id t
                then Sql.setCompleted (completed t) u else u)
    (map (fun u => if id u =? id t
                   then Sql.setCompleted (negb (completed t)) u else u) l)
  = l.
Proof.
  intros Hnd Ht. rewrite map_map. rewrite <- (map_id l) at 2.
  apply map_ext_in. intros u Hu.
  destruct (id u =? id t) eqn:E; simpl; rewrite E; [|reflexivity].
  apply Z.eqb_eq in E.
  rewrite (SqlFacts.key_unique l t u Hnd Ht Hu E).
  rewrite SqlFacts.setCompleted_twice.
  apply SqlFacts.setCompleted_same.
Qed.

Lemma update_frame (c : bool) (i : Z) (l : list Todo) :
  Forall2 (fun u u' =>
             id u' = id u /\ text u' = text u /\
             createdAt u' = createdAt u /\
             (id u <> i -> u' = u))
          l (map (fun u => if id u =? i then Sql.setCompleted c u else u) l).
Proof.
  induction l as [|x l IH]; simpl; constructor; [|exact IH].
  destruct (id x =? i) eqn:Ex; simpl; repeat split; auto.
  apply Z.eqb_eq in Ex. congruence.
Qed.

(** C4: for every item in the store, [toggleTodo] succeeds and the
    list then shows that item with [completed] flipped (and whatever
    the list shows under that [id] has the flipped flag); a second
    [toggleTodo] succeeds too and brings the item, indeed the whole
    table, back to what it was. *)
Theorem toggleTodo_flips_twice_restores (w : World) (t : Todo) :
  db_ok (db w) ->
  In t (todos (db w)) ->
  let w1 := exec (toggleTodo (id t)) w in
  let w2 := exec (toggleTodo (id t)) w1 in
  fst (toggleTodo (id t) w) = Ok tt /\
  In (Sql.setCompleted (negb (completed t)) t) (allTodos w1) /\
  (forall u, In u (allTodos w1) -> id u = id t ->
             completed u = negb (completed t)) /\
  fst (toggleTodo (id t) w1) = Ok tt /\
  In t (allTodos w2) /\
  (forall u, In u (allTodos w2) -> id u = id t ->
             completed u = completed t) /\
  db w2 = db w.
Proof.
  intros [Hnd Hlt] Ht w1 w2.
  pose proof (SqlFacts.find_key _ _ Hnd Ht) as Hf.
  pose proof (toggleTodo_found_run w (id t) t Hf) as E1.
  set (t' := Sql.setCompleted (negb (completed t)) t).
  assert (Hrows1 : todos (db w1)
            = map (fun u => if id u =? id t
                            then Sql.setCompleted (negb (completed t)) u
                            else u) (todos (db w))).
  { unfold w1, exec. now rewrite E1. }
  assert (Ht' : In t' (todos (db w1))).
  { rewrite Hrows1. apply in_map_iff. exists t. split; [|exact Ht].
    now rewrite Z.eqb_refl. }
  assert (Hnd1 : NoDup (map id (todos (db w1)))).
  { rewrite Hrows1, SqlFacts.update_ids. exact Hnd. }
  pose proof (SqlFacts.find_key _ _ Hnd1 Ht') as Hf1.
  pose proof (toggleTodo_found_run w1 (id t) t' Hf1) as E2.
  assert (Hdb : db w2 = db w).
  { unfold w2, exec. rewrite E2. simpl. unfold Sql.update.
    rewrite Hrows1. simpl. rewrite negb_involutive.
    rewrite (update_restores _ _ Hnd Ht).
    replace (todos_id_seq (db w1)) with (todos_id_seq (db w)).
    - now destruct (db w).
    - unfold w1, exec. now rewrite E1. }
  split; [now rewrite E1|].
  split; [now apply allTodos_In|].
  split.
  { intros u Hu Eu. apply allTodos_In in Hu.
    rewrite Hrows1 in Hu.
    apply update_In in Hu as [x [_ [_ ->]]]; [reflexivity | exact Eu]. }
  split; [now rewrite E2|].
  split; [apply allTodos_In; now rewrite Hdb|].
  split; [|exact Hdb].
  intros u Hu Eu. apply allTodos_In in Hu. rewrite Hdb in Hu.
  now rewrite (SqlFacts.key_unique _ _ _ Hnd Ht Hu Eu).
Qed.

Lemma toggleTodo_flips_twice_restores_witness :
  In (mkTodo 2 (JsString.lit "B") true 0 eq_refl)
     (allTodos (exec (toggleTodo 2) equalClockABC)) /\
  db (exec (toggleTodo 2) (exec (toggleTodo 2) equalClockABC))
  = db equalClockABC.
Proof.
  pose proof (toggleTodo_flips_twice_restores equalClockABC
                (mkTodo 2 (JsString.lit "B") false 0 eq_refl)) as H.
  simpl in H. split; apply H.
  all: try (vm_compute; tauto).
  all: split; [repeat constructor; simpl; intuition discriminate
              | repeat constructor].
Defined.




(** C7: a successful [toggleTodo] leaves the table row for row as it
    was except for [completed] in the row it names: every row keeps
    its [id], [text] and [createdAt], every row of another [id] is
    untouched, no row comes or goes, and the sequence and the clock
    stay put. *)
Theorem toggleTodo_frame (w : World) (t : Todo) :
  In t (todos (db w)) ->
  let w1 := exec (toggleTodo (id t)) w in
  fst (toggleTodo (id t) w) = Ok tt /\
  Forall2 (fun u u' =>
             id u' = id u /\ text u' = text u /\
             createdAt u' = createdAt u /\
             (id u <> id t -> u' = u))
          (todos (db w)) (todos (db w1)) /\
  todos_id_seq (db w1) = todos_id_seq (db w) /\
  clock w1 = clock w.
Proof.
  intros Ht w1.
  destruct (SqlFacts.find_present _ _ Ht) as [u0 Hf].
  pose proof (toggleTodo_found_run w (id t) u0 Hf) as E.
  unfold w1, exec. rewrite E. simpl.
  split; [reflexivity|]. split; [apply update_frame|]. split; reflexivity.
Qed.

Lemma toggleTodo_frame_witness :
  Forall2 (fun u u' =>
             id u' = id u /\ text u' = text u /\
             createdAt u' = createdAt u /\
             (id u <> 2 -> u' = u))
          (todos (db equalClockABC))
          (todos (db (exec (toggleTodo 2) equalClockABC))).
Proof.
  apply (toggleTodo_frame equalClockABC
           (mkTodo 2 (JsString.lit "B") false 0 eq_refl)).
  simpl. tauto.
Defined.

(* ================================================================== *)
(** ** [deleteTodo] *)

Lemma deleted_key_gone (i : Z) (l : list Todo) :
  ~ In i (map id (filter (fun t => negb (id t =? i)) l)).
Proof.
  intros Hin. apply in_map_iff in Hin as [u [E Hu]].
  apply filter_In in Hu as [_ Hu]. rewrite E, Z.eqb_refl in Hu.
  discriminate.
Qed.





(* ================================================================== *)
(** ** The invalidation signal *)

(** C8: each of [addTodo], [toggleTodo] and [deleteTodo], on every
    successful run, issues exactly one "list view is stale" signal, as
    its last effect and right after its store mutation; on a run that
    fails validation or lookup it issues none, and mutates nothing. *)
Theorem handlers_signal_once_after_mutation (txt : JsString.t) (i : Z) :
  signalsOnceAfterMutation (addTodo txt) /\
  signalsOnceAfterMutation (toggleTodo i) /\
  signalsOnceAfterMutation (deleteTodo i).
Proof.
  split; [|split]; intros w; unfold exec.
  - destruct (addTodo_cases w txt) as [[e He] | [t [_ [_ Hrun]]]].
    + exists []. rewrite He. simpl. rewrite app_nil_r. auto.
    + exists [SqlInsert (JsString.trim txt); RevalidatePath "/"].
      rewrite Hrun. simpl. split; [reflexivity|].
      exists [], (SqlInsert (JsString.trim txt)). auto.
  - rewrite toggleTodo_run. destruct (Pg.int4 i).
    + destruct (Sql.findFirst i (db w)) as [t|].
      * exists [SqlSelect i; SqlUpdate i (negb (completed t));
                RevalidatePath "/"].
        simpl. split; [reflexivity|].
        exists [SqlSelect i], (SqlUpdate i (negb (completed t))). auto.
      * exists [SqlSelect i]. simpl. auto.
    + exists []. simpl. rewrite app_nil_r. auto.
  - rewrite deleteTodo_run. destruct (Pg.int4 i).
    + exists [SqlDelete i; RevalidatePath "/"]. simpl.
      split; [reflexivity|]. exists [], (SqlDelete i). auto.
    + exists []. simpl. rewrite app_nil_r. auto.
Qed.

(* ================================================================== *)
(** ** The optimistic checkbox *)

(** C9: when the call [handleToggle] makes after its optimistic flip
    fails, with whatever error, the checkbox shows the flipped value
    only while the call is in flight; once the failure is known the
    item is settled again, nothing optimistic is left queued, and the
    checkbox shows the [completed] value of the [todo] prop the item
    had before the toggle.  And whenever [toggleTodo] itself is what
    failed, it has changed nothing in the store and issued no
    invalidation, so what the checkbox went back to is still what the
    store holds wherever it was before. *)
Theorem toggle_failure_reverts
    (call : Z -> Action unit) (v : TodoItem) (w w' : World) (e : Error) :
  call (id (todo v)) w = (Throw e, w') ->
  (let '(shown, settled, _) := handleToggle call v w in
   checked shown = negb (checked v) /\
   exists v',
     settled = Some v' /\
     checked v' = completed (todo v) /\
     queued v' = [] /\
     isPending v' = false /\
     todo v' = todo v) /\
  (forall i w0 e0 w0',
      toggleTodo i w0 = (Throw e0, w0') ->
      db w0' = db w0 /\
      invalidations (trace w0') = invalidations (trace w0)).
Proof.
  intros Hfail. split.
  - unfold handleToggle. rewrite Hfail. split.
    + unfold checked, optimisticCompleted, React.useOptimistic. simpl.
      now rewrite fold_left_app.
    + exists (mount (todo v)). simpl. auto.
  - intros i w0 e0 w0'. rewrite toggleTodo_run.
    destruct (Pg.int4 i).
    + destruct (Sql.findFirst i (db w0)); [discriminate|].
      intros H. injection H as _ <-. simpl. split; [reflexivity|].
      unfold invalidations. rewrite filter_app. simpl.
      now rewrite app_nil_r.
    + intros H. injection H as _ <-. auto.
Qed.

Lemma toggle_failure_reverts_witness :
  (let '(shown, settled, _) :=
     handleToggle toggleTodo
       (mount (mkTodo 7 (JsString.lit "gone") false 0 eq_refl))
       equalClockABC in
   checked shown = true /\
   exists v', settled = Some v' /\ checked v' = false) /\
  (let '(shown, settled, _) :=
     handleToggle (fun _ => throw (mkError "connection refused"))
       (mount (mkTodo 2 (JsString.lit "B") false 0 eq_refl))
       equalClockABC in
   checked shown = true /\
   exists v', settled = Some v' /\ checked v' = false).
Proof.
  split.
  - destruct (toggle_failure_reverts toggleTodo
                (mount (mkTodo 7 (JsString.lit "gone") false 0 eq_refl))
                equalClockABC (emit (SqlSelect 7) equalClockABC)
                NotFoundError eq_refl) as [[H1 [v' [H2 [H3 _]]]] _].
    split; [exact H1|]. exists v'. split; assumption.
  - destruct (toggle_failure_reverts
                (fun _ => throw (mkError "connection refused"))
                (mount (mkTodo 2 (JsString.lit "B") false 0 eq_refl))
                equalClockABC equalClockABC
                (mkError "connection refused") eq_refl)
      as [[H1 [v' [H2 [H3 _]]]] _].
    split; [exact H1|]. exists v'. split; assumption.
Defined.

(* ================================================================== *)
(** ** The tallies of the list view *)

Lemma tallies_length (l : list Todo) :
  (List.length (activeTodos l) + List.length (completedTodos l)
   = List.length l)%nat.
Proof.
  unfold activeTodos, completedTodos.
  induction l as [|t l IH]; simpl; [reflexivity|].
  destruct (completed t); simpl; lia.
Qed.

(** C10: for every list the view renders, the "active" tally plus the
    "completed" tally is the number of items, and every item is in
    exactly one of the two filtered lists; the numbers [TodoList]
    displays are those tallies of the list it displays. *)
Theorem TodoList_tallies_partition (w : World) (l : list Todo) :
  (List.length (activeTodos l) + List.length (completedTodos l)
   = List.length l)%nat /\
  Forall (fun t =>
            (In t (activeTodos l) /\ ~ In t (completedTodos l)) \/
            (~ In t (activeTodos l) /\ In t (completedTodos l))) l /\
  match TodoList w with
  | EmptyView => allTodos w = []
  | StatsView active done items =>
      items = allTodos w /\
      active = List.length (activeTodos items) /\
      done = List.length (completedTodos items) /\
      (active + done = List.length items)%nat
  end.
Proof.
  split; [apply tallies_length|]. split.
  - apply Forall_forall. intros t Ht.
    unfold activeTodos, completedTodos. rewrite !filter_In.
    destruct (completed t) eqn:E; simpl.
    + right. intuition discriminate.
    + left. intuition discriminate.
  - unfold TodoList. destruct (allTodos w) as [|t r] eqn:E; simpl.
    + reflexivity.
    + repeat split. apply (tallies_length (t :: r)).
Qed.

(* ================================================================== *)
(** ** What the stored rows keep *)

Lemma step_seq_mono (w w' : World) :
  step w w' -> todos_id_seq (db w) <= todos_id_seq (db w').
Proof.
  intros [txt w0 | i w0 | i w0 | now w0 | tie w0]; unfold exec.
  - destruct (addTodo_cases w0 txt) as [[e He] | [t [_ [_ Hrun]]]].
    + rewrite He. simpl. lia.
    + rewrite Hrun. simpl. lia.
  - rewrite toggleTodo_run. destruct (Pg.int4 i); [|simpl; lia].
    destruct (Sql.findFirst i (db w0)); simpl; lia.
  - rewrite deleteTodo_run. destruct (Pg.int4 i); simpl; lia.
  - simpl. lia.
  - simpl. lia.
Qed.

(** Whatever request is served, every row found afterwards either was
    there before with the same [id], [text] and [createdAt], or is the
    one row [addTodo] has just written. *)
Lemma step_rows_origin (w w' : World) (u' : Todo) :
  step w w' ->
  In u' (todos (db w')) ->
  (exists u, In u (todos (db w)) /\
             id u' = id u /\ text u' = text u /\
             createdAt u' = createdAt u) \/
  (exists txt, JsString.trim txt <> [] /\ isInsertedRow txt w u').
Proof.
  intros Hstep Hin.
  destruct Hstep as [txt w | i w | i w | now w | tie w];
    unfold exec in Hin.
  - destruct (addTodo_cases w txt) as [[e He] | [t [Hne [Hrow Hrun]]]].
    + left. rewrite He in Hin. exists u'. auto.
    + rewrite Hrun in Hin. simpl in Hin.
      apply in_app_or in Hin as [Hin | [<- | []]].
      * left. exists u'. auto.
      * right. exists txt. auto.
  - left. rewrite toggleTodo_run in Hin.
    destruct (Pg.int4 i); [|exists u'; auto].
    destruct (Sql.findFirst i (db w)) as [t|].
    + simpl in Hin. apply in_map_iff in Hin as [u [<- Hu]]. exists u.
      destruct (id u =? i); auto.
    + exists u'. auto.
  - left. rewrite deleteTodo_run in Hin.
    destruct (Pg.int4 i); [|exists u'; auto].
    simpl in Hin. apply filter_In in Hin as [Hin _]. exists u'. auto.
  - left. exists u'. auto.
  - left. exists u'. auto.
Qed.

(** X2: in every world the program reaches from an empty table, the
    text of every stored item is non-empty and is its own trimmed
    form, so it neither starts nor ends with white space. *)
Theorem reachable_text_trimmed (w : World) :
  reachable w ->
  Forall (fun t => text t <> [] /\ JsString.trim (text t) = text t)
         (todos (db w)).
Proof.
  induction 1 as [now | w w' _ IH Hstep]; [constructor|].
  apply Forall_forall. intros u' Hin. rewrite Forall_forall in IH.
  destruct (step_rows_origin _ _ _ Hstep Hin)
    as [[u [Hu [_ [Ht _]]]] | [txt [Hne [_ [Ht _]]]]].
  - rewrite Ht. now apply IH.
  - rewrite Ht. split.
    + now apply PgFacts.toWellFormed_nonempty.
    + apply (JsStringFacts.trim_fixed_flags (JsString.trim txt)).
      * apply PgFacts.toWellFormed_flags.
      * apply JsStringFacts.trim_idem.
Qed.

Lemma reachable_text_trimmed_witness :
  Forall (fun t => text t <> [] /\ JsString.trim (text t) = text t)
         (todos (db (exec (addTodo (JsString.lit "  buy milk  "))
                          (freshWorld 0)))).
Proof.
  apply reachable_text_trimmed.
  eapply reachable_step; [apply (reachable_fresh 0) | apply step_addTodo].
Defined.

(** X3: a key is never handed out twice: an [id] below the sequence
    that names no item (it was deleted, or never stored) names no item
    after any further run of requests. *)
Theorem ids_never_reused (w w' : World) (i : Z) :
  steps w w' ->
  db_ok (db w) ->
  i < todos_id_seq (db w) ->
  ~ In i (map id (todos (db w))) ->
  ~ In i (map id (todos (db w'))).
Proof.
  intros Hsteps Hok Hlt Habs.
  assert (H : db_ok (db w') /\ i < todos_id_seq (db w') /\
              ~ In i (map id (todos (db w')))).
  { induction Hsteps as [w | w w' w'' _ IH Hstep]; [auto|].
    destruct (IH Hok Hlt Habs) as [Hok' [Hlt' Habs']].
    split; [now apply (step_db_ok w' w'')|].
    split; [pose proof (step_seq_mono _ _ Hstep); lia|].
    intros Hin. apply in_map_iff in Hin as [u' [E Hu']].
    destruct (step_rows_origin _ _ _ Hstep Hu')
      as [[u [Hu [Hid _]]] | [txt [_ [Hid _]]]].
    - apply Habs'. apply in_map_iff. exists u. split; [congruence|exact Hu].
    - lia. }
  apply H.
Qed.

Lemma ids_never_reused_witness :
  ~ In 2 (map id (todos (db (exec (addTodo (JsString.lit "D"))
                                  (exec (deleteTodo 2) equalClockABC))))).
Proof.
  apply (ids_never_reused (exec (deleteTodo 2) equalClockABC)).
  - eapply steps_next; [apply steps_refl | apply step_addTodo].
  - split; [repeat constructor; simpl; intuition discriminate
           | repeat constructor].
  - reflexivity.
  - simpl. intuition discriminate.
Defined.

(** X1: over any run of requests an item keeps its text and its
    creation time: whatever is stored under the [id] of an item at the
    end has the [text] and the [createdAt] that item had at the start.
    Only [completed] can differ. *)
Theorem item_text_createdAt_immutable (w w' : World) (u u' : Todo) :
  steps w w' ->
  db_ok (db w) ->
  In u (todos (db w)) ->
  In u' (todos (db w')) ->
  id u' = id u ->
  text u' = text u /\ createdAt u' = createdAt u.
Proof.
  intros Hsteps Hok Hu. revert u'.
  assert (Hlt : id u < todos_id_seq (db w)).
  { destruct Hok as [_ H]. rewrite Forall_forall in H. now apply H. }
  assert (H : todos_id_seq (db w) <= todos_id_seq (db w') /\
              forall u', In u' (todos (db w')) -> id u' = id u ->
                         text u' = text u /\ createdAt u' = createdAt u).
  { induction Hsteps as [w | w w' w'' _ IH Hstep].
    - split; [lia|]. intros u' Hu' E.
      destruct Hok as [Hnd _].
      now rewrite (SqlFacts.key_unique _ _ _ Hnd Hu Hu' E).
    - destruct (IH Hok Hu Hlt) as [Hseq Hrows].
      split; [pose proof (step_seq_mono _ _ Hstep); lia|].
      intros u' Hu' E.
      destruct (step_rows_origin _ _ _ Hstep Hu')
        as [[u0 [Hu0 [Hid [Ht Hc]]]] | [txt [_ [Hid _]]]].
      + rewrite Ht, Hc. apply Hrows; [exact Hu0 | congruence].
      + lia. }
  apply H.
Qed.

Lemma item_text_createdAt_immutable_witness :
  text (mkTodo 2 (JsString.lit "B") true 0 eq_refl) = JsString.lit "B" /\
  createdAt (mkTodo 2 (JsString.lit "B") true 0 eq_refl) = 0.
Proof.
  apply (item_text_createdAt_immutable equalClockABC
           (exec (deleteTodo 1) (exec (toggleTodo 2) equalClockABC))
           (mkTodo 2 (JsString.lit "B") false 0 eq_refl)
           (mkTodo 2 (JsString.lit "B") true 0 eq_refl)).
  - eapply steps_next; [|apply step_deleteTodo].
    eapply steps_next; [apply steps_refl | apply step_toggleTodo].
  - split; [repeat constructor; simpl; intuition discriminate
           | repeat constructor].
  - simpl. tauto.
  - simpl. tauto.
  - reflexivity.
Defined.

(* ================================================================== *)
(** ** How the handlers compose *)

Lemma seq_not_a_key (d : Db) :
  db_ok d -> ~ In (todos_id_seq d) (map id (todos d)).
Proof.
  intros [_ Hlt] Hin. apply in_map_iff in Hin as [u [E Hu]].
  rewrite Forall_forall in Hlt. specialize (Hlt u Hu). lia.
Qed.

Lemma find_snoc_absent (l : list Todo) (r : Todo) :
  ~ In (id r) (map id l) ->
  find (fun u => id u =? id r) (l ++ [r]) = Some r.
Proof.
  induction l as [|x l IH]; simpl; intros H.
  - now rewrite Z.eqb_refl.
  - destruct (id x =? id r) eqn:E.
    + apply Z.eqb_eq in E. tauto.
    + apply IH. tauto.
Qed.

(** X4: an item's whole life.  For every text that is non-empty after
    trimming and holds no U+0000, as long as the sequence still has an
    [integer] to give: [addTodo], then [toggleTodo] of the new key,
    then [deleteTodo] of it all succeed; the list in between shows the
    item completed; and at the end the table holds the very rows it
    held before, in the same order; only the sequence has moved on by
    one. *)
Theorem add_toggle_delete_round_trip (w : World) (txt : JsString.t) :
  db_ok (db w) ->
  JsString.trim txt <> [] ->
  Pg.hasNul (JsString.trim txt) = false ->
  Pg.int4 (todos_id_seq (db w)) = true ->
  let i := todos_id_seq (db w) in
  let w1 := exec (addTodo txt) w in
  let w2 := exec (toggleTodo i) w1 in
  let w3 := exec (deleteTodo i) w2 in
  fst (addTodo txt w) = Ok tt /\
  fst (toggleTodo i w1) = Ok tt /\
  (exists t, In t (allTodos w2) /\ id t = i /\
             text t = Pg.toWellFormed (JsString.trim txt) /\
             completed t = true) /\
  fst (deleteTodo i w2) = Ok tt /\
  todos (db w3) = todos (db w) /\
  todos_id_seq (db w3) = i + 1.
Proof.
  intros Hok Ht Hn Hs i w1 w2 w3.
  pose proof (seq_not_a_key _ Hok) as Hfresh. fold i in Hfresh.
  destruct (addTodo_ok w txt Ht Hn Hs) as [r [[Hid [Htx [Hc Hcr]]] R1]].
  fold i in Hid.
  assert (E1 : todos (db w1) = todos (db w) ++ [r]).
  { unfold w1, exec. now rewrite R1. }
  assert (S1 : todos_id_seq (db w1) = i + 1).
  { unfold w1, exec. now rewrite R1. }
  assert (Hf : Sql.findFirst i (db w1) = Some r).
  { unfold Sql.findFirst. rewrite E1, <- Hid.
    apply find_snoc_absent. now rewrite Hid. }
  pose proof (toggleTodo_found_run w1 i r Hf) as R2.
  assert (E2 : todos (db w2)
               = todos (db w) ++ [Sql.setCompleted true r]).
  { unfold w2, exec. rewrite R2. simpl. rewrite E1, map_app.
    rewrite (SqlFacts.update_absent _ _ _ Hfresh). simpl.
    now rewrite Hid, Z.eqb_refl, Hc. }
  assert (S2 : todos_id_seq (db w2) = i + 1).
  { unfold w2, exec. rewrite R2. exact S1. }
  assert (R3 : deleteTodo i w2
               = (Ok tt,
                  {| db := Sql.delete i (db w2); clock := clock w2;
                     trace := trace w2 ++ [SqlDelete i; RevalidatePath "/"];
                     ties := ties w2 |})).
  { rewrite deleteTodo_run. unfold i. now rewrite Hs. }
  split; [now rewrite R1|].
  split; [now rewrite R2|].
  split.
  { exists (Sql.setCompleted true r). split; [|simpl; auto].
    apply allTodos_In. rewrite E2. apply in_or_app. right. now left. }
  split; [now rewrite R3|].
  unfold w3, exec. rewrite R3. simpl. split; [|exact S2].
  rewrite E2, filter_app. rewrite (SqlFacts.filter_absent _ _ Hfresh).
  simpl. rewrite Hid, Z.eqb_refl. simpl. apply app_nil_r.
Qed.

Lemma add_toggle_delete_round_trip_witness :
  todos (db (exec (deleteTodo 4)
               (exec (toggleTodo 4)
                  (exec (addTodo (JsString.lit " buy milk ")) equalClockABC))))
  = todos (db equalClockABC).
Proof.
  apply (add_toggle_delete_round_trip equalClockABC
           (JsString.lit " buy milk ")).
  - split; [repeat constructor; simpl; intuition discriminate
           | repeat constructor].
  - discriminate.
  - reflexivity.
  - reflexivity.
Defined.

Lemma find_update_other (c : bool) (i j : Z) (l : list Todo) :
  i <> j ->
  find (fun u => id u =? j)
       (map (fun t => if id t =? i then Sql.setCompleted c t else t) l)
  = find (fun u => id u =? j) l.
Proof.
  intros Hij. induction l as [|x l IH]; simpl; [reflexivity|].
  destruct (id x =? i) eqn:Ei; simpl.
  - apply Z.eqb_eq in Ei.
    destruct (id x =? j) eqn:Ej; [|exact IH].
    apply Z.eqb_eq in Ej. congruence.
  - destruct (id x =? j); [reflexivity | exact IH].
Qed.

Lemma update_commute (c c' : bool) (i j : Z) (d : Db) :
  i <> j ->
  Sql.update c' j (Sql.update c i d) = Sql.update c i (Sql.update c' j d).
Proof.
  intros Hij. unfold Sql.update. simpl. f_equal.
  rewrite !map_map. apply map_ext. intros t.
  destruct (id t =? i) eqn:Ei, (id t =? j) eqn:Ej; simpl;
    rewrite ?Ei, ?Ej; try reflexivity.
  apply Z.eqb_eq in Ei, Ej. congruence.
Qed.

(** The table [toggleTodo] leaves and the outcome it has are read off
    the key and the row the lookup finds. *)
Lemma toggleTodo_db (w : World) (k : Z) :
  db (exec (toggleTodo k) w)
  = match Sql.findFirst k (db w) with
    | Some t => Sql.update (negb (completed t)) k (db w)
    | None => db w
    end.
Proof.
  unfold exec. rewrite toggleTodo_run.
  destruct (Sql.findFirst k (db w)) as [t|] eqn:Hf.
  - now rewrite (SqlFacts.findFirst_int4 _ _ _ Hf).
  - now destruct (Pg.int4 k).
Qed.

Lemma toggleTodo_outcome (w : World) (k : Z) :
  fst (toggleTodo k w)
  = if Pg.int4 k then
      match Sql.findFirst k (db w) with
      | Some _ => Ok tt
      | None => Throw NotFoundError
      end
    else Throw PgIntegerOutOfRange.
Proof.
  rewrite toggleTodo_run. destruct (Pg.int4 k); [|reflexivity].
  now destruct (Sql.findFirst k (db w)).
Qed.

(** X5: toggles of two different keys do not interfere: in either
    order each call has the same outcome and the table ends up the
    same, whether or not the keys name items. *)
Theorem toggleTodo_commute (w : World) (i j : Z) :
  i <> j ->
  db (exec (toggleTodo j) (exec (toggleTodo i) w))
  = db (exec (toggleTodo i) (exec (toggleTodo j) w)) /\
  fst (toggleTodo j (exec (toggleTodo i) w)) = fst (toggleTodo j w) /\
  fst (toggleTodo i (exec (toggleTodo j) w)) = fst (toggleTodo i w).
Proof.
  intros Hij.
  assert (Hji : j <> i) by congruence.
  assert (Hother : forall a b w0, a <> b ->
            Sql.findFirst b (db (exec (toggleTodo a) w0))
            = Sql.findFirst b (db w0)).
  { intros a b w0 Hab. rewrite toggleTodo_db.
    destruct (Sql.findFirst a (db w0)); [|reflexivity].
    unfold Sql.findFirst. simpl. now apply find_update_other. }
  split; [|split].
  - rewrite (toggleTodo_db (exec (toggleTodo i) w) j).
    rewrite (toggleTodo_db (exec (toggleTodo j) w) i).
    rewrite (Hother i j w Hij), (Hother j i w Hji), !toggleTodo_db.
    destruct (Sql.findFirst i (db w)), (Sql.findFirst j (db w));
      try reflexivity.
    now apply update_commute.
  - now rewrite !toggleTodo_outcome, (Hother i j w Hij).
  - now rewrite !toggleTodo_outcome, (Hother j i w Hji).
Qed.

Lemma toggleTodo_commute_witness :
  db (exec (toggleTodo 3) (exec (toggleTodo 1) equalClockABC))
  = db (exec (toggleTodo 1) (exec (toggleTodo 3) equalClockABC)).
Proof.
  apply (toggleTodo_commute equalClockABC 1 3). lia.
Defined.

(* ================================================================== *)
(** ** What the list view shows *)

Lemma allTodos_length (w : World) :
  List.length (allTodos w) = List.length (todos (db w)).
Proof. symmetry. apply Permutation_length, allTodos_perm. Qed.

Lemma filter_listed_length (p : Todo -> bool) (w : World) :
  List.length (filter p (allTodos w))
  = List.length (filter p (todos (db w))).
Proof.
  symmetry. apply Permutation_length, SqlFacts.filter_perm, allTodos_perm.
Qed.

(** X6: [TodoList] shows the "No todos yet" message exactly when the
    table has no row; otherwise it shows every row of the table. *)
Theorem TodoList_empty_iff (w : World) :
  (TodoList w = EmptyView <-> todos (db w) = []) /\
  (forall a c items,
      TodoList w = StatsView a c items ->
      Permutation (todos (db w)) items /\ items <> []).
Proof.
  unfold TodoList. split.
  - rewrite allTodos_length.
    destruct (todos (db w)) as [|t r]; simpl; split;
      try reflexivity; discriminate.
  - intros a c items.
    destruct (allTodos w) as [|t r] eqn:E; simpl; [discriminate|].
    intros H. injection H as _ _ <-. split; [|discriminate].
    rewrite <- E. apply allTodos_perm.
Qed.

Lemma TodoList_empty_iff_witness :
  Permutation (todos (db equalClockABC)) (allTodos equalClockABC) /\
  allTodos equalClockABC <> [].
Proof.
  apply (proj2 (TodoList_empty_iff equalClockABC) 3%nat 0%nat).
  reflexivity.
Defined.

Lemma completed_count_up (l : list Todo) (t : Todo) :
  NoDup (map id l) -> In t l -> completed t = false ->
  List.length (completedTodos
     (map (fun u => if id u =? id t then Sql.setCompleted true u else u) l))
  = S (List.length (completedTodos l)).
Proof.
  unfold completedTodos.
  induction l as [|x l IH]; simpl; [tauto|].
  intros Hnd Hin Hc. apply NoDup_cons_iff in Hnd as [Hx Hnd].
  destruct Hin as [->|Hin].
  - rewrite Z.eqb_refl. simpl. rewrite Hc.
    now rewrite (SqlFacts.update_absent _ _ _ Hx).
  - destruct (id x =? id t) eqn:E.
    + apply Z.eqb_eq in E. exfalso. apply Hx. rewrite E. now apply in_map.
    + destruct (completed x); simpl; rewrite (IH Hnd Hin Hc); reflexivity.
Qed.

Lemma completed_count_down (l : list Todo) (t : Todo) :
  NoDup (map id l) -> In t l -> completed t = true ->
  S (List.length (completedTodos
       (map (fun u => if id u =? id t then Sql.setCompleted false u else u)
            l)))
  = List.length (completedTodos l).
Proof.
  unfold completedTodos.
  induction l as [|x l IH]; simpl; [tauto|].
  intros Hnd Hin Hc. apply NoDup_cons_iff in Hnd as [Hx Hnd].
  destruct Hin as [->|Hin].
  - rewrite Z.eqb_refl. simpl. rewrite Hc.
    now rewrite (SqlFacts.update_absent _ _ _ Hx).
  - destruct (id x =? id t) eqn:E.
    + apply Z.eqb_eq in E. exfalso. apply Hx. rewrite E. now apply in_map.
    + destruct (completed x); simpl; rewrite <- (IH Hnd Hin Hc); reflexivity.
Qed.

(** X7: toggling an item moves exactly one item between the two
    tallies of the list view: an active item leaves the "active" count
    and joins the "completed" count, a completed one goes the other
    way, and the number of items listed stays the same. *)
Theorem toggleTodo_moves_one_tally (w : World) (t : Todo) :
  db_ok (db w) ->
  In t (todos (db w)) ->
  let before := allTodos w in
  let after := allTodos (exec (toggleTodo (id t)) w) in
  List.length after = List.length before /\
  (completed t = false ->
   List.length (activeTodos before) = S (List.length (activeTodos after)) /\
   List.length (completedTodos after)
   = S (List.length (completedTodos before))) /\
  (completed t = true ->
   List.length (activeTodos after) = S (List.length (activeTodos before)) /\
   List.length (completedTodos before)
   = S (List.length (completedTodos after))).
Proof.
  intros [Hnd _] Hin before after.
  pose proof (SqlFacts.find_key _ _ Hnd Hin) as Hf.
  pose proof (toggleTodo_found_run w (id t) t Hf) as R.
  assert (Hlen : List.length after = List.length before).
  { unfold after, before. rewrite !allTodos_length.
    unfold exec. rewrite R. simpl. apply length_map. }
  pose proof (tallies_length before) as Tb.
  pose proof (tallies_length after) as Ta.
  assert (Cb : List.length (completedTodos before)
               = List.length (completedTodos (todos (db w)))).
  { apply filter_listed_length. }
  assert (Ca : List.length (completedTodos after)
               = List.length (completedTodos
                   (map (fun u => if id u =? id t
                                  then Sql.setCompleted
                                         (negb (completed t)) u
                                  else u) (todos (db w))))).
  { unfold after, completedTodos. rewrite filter_listed_length.
    unfold exec. now rewrite R. }
  split; [exact Hlen|]. split; intros Hc; rewrite Hc in Ca; simpl in Ca.
  - pose proof (completed_count_up _ _ Hnd Hin Hc). lia.
  - pose proof (completed_count_down _ _ Hnd Hin Hc). lia.
Qed.

Lemma toggleTodo_moves_one_tally_witness :
  List.length (activeTodos (allTodos equalClockABC))
  = S (List.length
         (activeTodos (allTodos (exec (toggleTodo 2) equalClockABC)))) /\
  List.length
    (completedTodos (allTodos (exec (toggleTodo 2) equalClockABC)))
  = S (List.length (completedTodos (allTodos equalClockABC))).
Proof.
  apply (toggleTodo_moves_one_tally equalClockABC
           (mkTodo 2 (JsString.lit "B") false 0 eq_refl)).
  - split; [repeat constructor; simpl; intuition discriminate
           | repeat constructor].
  - simpl. tauto.
  - reflexivity.
Defined.

(* ================================================================== *)
(** ** The client handlers on a successful call *)

Lemma allTodos_keys (w : World) :
  NoDup (map id (todos (db w))) -> NoDup (map id (allTodos w)).
Proof.
  apply Permutation_NoDup, Permutation_map, allTodos_perm.
Qed.

Lemma settle_ok_present (w : World) (v : TodoItem) (u : Todo) :
  db_ok (db w) -> In u (todos (db w)) -> id (todo v) = id u ->
  settle (Ok tt) w v = Some (mount u).
Proof.
  intros [Hnd _] Hu E. simpl. rewrite E.
  rewrite (SqlFacts.find_key (allTodos w) u).
  - reflexivity.
  - now apply allTodos_keys.
  - now apply allTodos_In.
Qed.

(** X8: [handleDelete] with [deleteTodo]: the call succeeds, the
    refreshed list has no item of that key, so the item is not
    rendered again, be it the only item or not; every other stored
    item is rendered again with the very row it had. *)
Theorem handleDelete_unmounts (w : World) (v : TodoItem) :
  let (settled, w') := handleDelete deleteTodo v w in
  fst (deleteTodo (id (todo v)) w) = Ok tt /\
  settled = None /\
  ~ In (id (todo v)) (map id (allTodos w')) /\
  (db_ok (db w) ->
   forall u, In u (todos (db w)) -> id u <> id (todo v) ->
             settle (Ok tt) w' (mount u) = Some (mount u)).
Proof.
  unfold handleDelete. rewrite deleteTodo_run, (id_int4 (todo v)).
  set (w' := {| db := Sql.delete (id (todo v)) (db w); clock := clock w;
                trace := _; ties := ties w |}).
  assert (Hgone : ~ In (id (todo v)) (map id (allTodos w'))).
  { intros Hin. apply in_map_iff in Hin as [x [E Hx]].
    apply allTodos_In in Hx. simpl in Hx.
    apply (deleted_key_gone (id (todo v)) (todos (db w))).
    apply in_map_iff. eauto. }
  split; [reflexivity|]. split; [|split].
  - simpl. now rewrite (SqlFacts.find_absent _ _ Hgone).
  - exact Hgone.
  - intros Hok u Hu Hne.
    apply settle_ok_present; [now apply db_ok_delete | | reflexivity].
    simpl. apply filter_In. split; [exact Hu|].
    apply negb_true_iff, Z.eqb_neq. exact Hne.
Qed.

Lemma equalClockABC_db_ok : db_ok (db equalClockABC).
Proof.
  split; [repeat constructor; simpl; intuition discriminate
         | repeat constructor].
Defined.

Lemma handleDelete_unmounts_witness :
  (let (settled, w') :=
     handleDelete deleteTodo
       (mount (mkTodo 1 (JsString.lit "A") false 0 eq_refl))
       (exec (addTodo (JsString.lit "A")) (freshWorld 0)) in
   settled = None /\ allTodos w' = []) /\
  (let (settled, w') :=
     handleDelete deleteTodo
       (mount (mkTodo 2 (JsString.lit "B") false 0 eq_refl))
       equalClockABC in
   settled = None /\
   settle (Ok tt) w' (mount (mkTodo 3 (JsString.lit "C") false 0 eq_refl))
   = Some (mount (mkTodo 3 (JsString.lit "C") false 0 eq_refl))).
Proof.
  split.
  - pose proof (handleDelete_unmounts
                  (exec (addTodo (JsString.lit "A")) (freshWorld 0))
                  (mount (mkTodo 1 (JsString.lit "A") false 0 eq_refl)))
      as H.
    simpl in H. simpl. destruct H as [_ [H _]].
    split; [exact H | reflexivity].
  - pose proof (handleDelete_unmounts equalClockABC
                  (mount (mkTodo 2 (JsString.lit "B") false 0 eq_refl)))
      as H.
    simpl in H. simpl. destruct H as [_ [H1 [_ H2]]].
    split; [exact H1|].
    apply (H2 (equalClockABC_db_ok)
              (mkTodo 3 (JsString.lit "C") false 0 eq_refl)).
    + simpl. tauto.
    + discriminate.
Defined.

(** X9: [handleToggle] with [toggleTodo] on a stored item: once the
    call has succeeded the item is rendered from the stored row with
    its flag flipped and nothing optimistic left; when the [todo] prop
    was that stored row, the checkbox then shows what it showed while
    the call was in flight, and when the prop was stale it shows the
    stored value, not the guess. *)
Theorem handleToggle_success_settles (w : World) (v : TodoItem) (t : Todo) :
  db_ok (db w) ->
  In t (todos (db w)) ->
  id (todo v) = id t ->
  let '(shown, settled, _) := handleToggle toggleTodo v w in
  settled = Some (mount (Sql.setCompleted (negb (completed t)) t)) /\
  checked shown = negb (checked v) /\
  (checked v = completed t ->
   exists v', settled = Some v' /\ checked v' = checked shown) /\
  (checked v <> completed t ->
   exists v', settled = Some v' /\ checked v' <> checked shown).
Proof.
  intros Hok Hin E. pose proof Hok as [Hnd _].
  unfold handleToggle. rewrite E.
  pose proof (SqlFacts.find_key _ _ Hnd Hin) as Hf.
  rewrite (toggleTodo_found_run w (id t) t Hf).
  set (w' := {| db := Sql.update (negb (completed t)) (id t) (db w);
                clock := clock w; trace := _; ties := ties w |}).
  set (shown := setOptimisticCompleted (negb (optimisticCompleted v)) v).
  assert (Hs : settle (Ok tt) w' shown
               = Some (mount (Sql.setCompleted (negb (completed t)) t))).
  { apply settle_ok_present.
    - now apply db_ok_update.
    - simpl. apply in_map_iff. exists t. split; [|exact Hin].
      now rewrite Z.eqb_refl.
    - exact E. }
  assert (Hshown : checked shown = negb (checked v)).
  { unfold shown, checked, optimisticCompleted, React.useOptimistic.
    simpl. now rewrite fold_left_app. }
  split; [exact Hs|]. split; [exact Hshown|]. split; intros Hc.
  - eexists. split; [exact Hs|]. rewrite Hshown, Hc. reflexivity.
  - eexists. split; [exact Hs|]. rewrite Hshown.
    unfold checked at 1, optimisticCompleted, React.useOptimistic. simpl.
    destruct (checked v), (completed t); simpl; congruence.
Qed.

Lemma handleToggle_success_settles_witness :
  let '(shown, settled, _) :=
    handleToggle toggleTodo
      (mount (mkTodo 2 (JsString.lit "B") false 0 eq_refl))
      equalClockABC in
  settled = Some (mount (mkTodo 2 (JsString.lit "B") true 0 eq_refl)) /\
  checked shown = true.
Proof.
  pose proof (handleToggle_success_settles equalClockABC
                (mount (mkTodo 2 (JsString.lit "B") false 0 eq_refl))
                (mkTodo 2 (JsString.lit "B") false 0 eq_refl)) as H.
  vm_compute in H |- *.
  destruct H as [H1 [H2 _]].
  - split; [repeat constructor; simpl; intuition discriminate
           | repeat constructor].
  - tauto.
  - reflexivity.
  - split; assumption.
Defined.

(* ================================================================== *)
(** ** The form's guard and the handler's guard *)

(** X10: [handleSubmit] and [addTodo] test the same thing.  On a blank
    input [handleSubmit] returns at once: nothing is dispatched, the
    form is not reset, the server is not called (where [addTodo]
    itself would have thrown the validation error).  On any other
    input it dispatches the closure; the closure, when run, resets the
    form whatever becomes of the call, and its [addTodo] call never
    throws the validation error: it either stores one row, or throws
    what the database threw and stores nothing. *)
Theorem handleSubmit_guard
    (startTransition : (Client -> Result unit * Client) -> Client -> Client)
    (f : FormDom) (w : World) :
  (JsString.blank (textInput f) = true ->
   handleSubmit startTransition (f, w) = (f, w) /\
   fst (addTodo (textInput f) w) = Throw ValidationError) /\
  (JsString.blank (textInput f) = false ->
   handleSubmit startTransition (f, w)
   = startTransition (submitAction addTodo (textInput f)) (f, w) /\
   submitAction addTodo (textInput f) (f, w)
   = (fst (addTodo (textInput f) w),
      (formReset f, exec (addTodo (textInput f)) w)) /\
   fst (addTodo (textInput f) w) <> Throw ValidationError /\
   ((exists t, fst (addTodo (textInput f) w) = Ok tt /\
               isInsertedRow (textInput f) w t /\
               todos (db (exec (addTodo (textInput f)) w))
               = todos (db w) ++ [t]) \/
    (exists e, addTodo (textInput f) w = (Throw e, w) /\
               (e = PgInvalidByteSequence \/ e = PgSequenceExhausted)))).
Proof.
  unfold handleSubmit. simpl. rewrite JsStringFacts.truthy_trim.
  split; intros Hb; rewrite Hb; simpl.
  - split; [reflexivity|].
    unfold addTodo. now rewrite JsStringFacts.truthy_trim, Hb.
  - assert (Ht : JsString.trim (textInput f) <> []).
    { intros Ht. apply JsStringFacts.trim_nil_iff in Ht. congruence. }
    split; [reflexivity|]. split.
    { unfold submitAction, exec. simpl.
      now destruct (addTodo (textInput f) w). }
    destruct (Pg.hasNul (JsString.trim (textInput f))) eqn:Hn.
    { assert (R : addTodo (textInput f) w = (Throw PgInvalidByteSequence, w)).
      { rewrite (addTodo_nonblank _ _ Ht). unfold bind, db_insert.
        now rewrite (PgFacts.textParam_none _ Hn). }
      rewrite R. split; [discriminate|]. right. eauto. }
    destruct (Pg.int4 (todos_id_seq (db w))) eqn:Hs.
    + destruct (addTodo_ok w _ Ht Hn Hs) as [t [Hrow R]].
      unfold exec. rewrite R. split; [discriminate|]. left.
      exists t. auto.
    + assert (R : addTodo (textInput f) w = (Throw PgSequenceExhausted, w)).
      { rewrite (addTodo_nonblank _ _ Ht). unfold bind, db_insert.
        rewrite (PgFacts.textParam_some _ Hn).
        now rewrite (SqlFacts.insert_none _ _ _ Hs). }
      rewrite R. split; [discriminate|]. right. eauto.
Qed.

Lemma handleSubmit_guard_witness :
  (handleSubmit (fun act c => snd (act c))
     (mkFormDom [0x20; 0x09]%N, equalClockABC)
   = (mkFormDom [0x20; 0x09]%N, equalClockABC)) /\
  (submitAction addTodo (JsString.lit " D ")
     (mkFormDom (JsString.lit " D "), equalClockABC)
   = (fst (addTodo (JsString.lit " D ") equalClockABC),
      (formReset (mkFormDom (JsString.lit " D ")),
       exec (addTodo (JsString.lit " D ")) equalClockABC))) /\
  fst (addTodo textWithNul equalClockABC) <> Throw ValidationError.
Proof.
  split; [|split].
  - apply (handleSubmit_guard (fun act c => snd (act c))
             (mkFormDom [0x20; 0x09]%N) equalClockABC).
    reflexivity.
  - apply (handleSubmit_guard (fun act c => snd (act c))
             (mkFormDom (JsString.lit " D ")) equalClockABC).
    reflexivity.
  - apply (handleSubmit_guard (fun act c => snd (act c))
             (mkFormDom textWithNul) equalClockABC).
    reflexivity.
Defined.

(* ================================================================== *)
(** ** Acting on an item that is gone *)


